(** * Ship placement engine of the battleship setup screen

    A shallow embedding of the placement logic of the [Game] component:
    the fleet of ships, the placement validator [canPlaceShipAt], the
    committing operation [placeShip], the breadth-first rotation search of
    [rotateShip], the type guards of the drag data and the event handlers.
    The drag modifier [snapToGrid] is embedded as well.

    Conventions.  Grid coordinates and ship sizes are JavaScript numbers that
    only ever hold integers; they are modelled in [Z].  Pixel quantities are
    JavaScript numbers with fractional values; they are modelled as IEEE 754
    binary64 numbers, with the operations of [PrimFloat].  The component
    state [shipPieces] is passed explicitly: an operation that calls
    [setShipPieces] returns the next fleet. *)

From Stdlib Require Import ZArith Lia.
From Stdlib Require PrimFloat SpecFloat FloatOps.
From stdpp Require Import base list strings gmap sets numbers.

Set Warnings "-clear-no-such-hyp,-register-all".

Local Open Scope Z_scope.

(** ** Data model *)

(** [type Ship]: [position] is either the empty array (unplaced) or the pair
    [[row, col]] of the topmost/leftmost cell. *)
Record Ship := mkShip {
  name : string;
  size : Z;
  position : option (Z * Z);
  color : string;
  horizontal : bool
}.

Abbreviation Fleet := (list Ship).

Definition defaultShips : Fleet :=
  [ mkShip "Carrier" 5 None "#1E40AF" true;
    mkShip "Battleship" 4 None "#3B82F6" true;
    mkShip "Cruiser" 3 None "#60A5FA" true;
    mkShip "Submarine" 3 None "#93C5FD" true;
    mkShip "Destroyer" 2 None "#C0D6F0" true ].

Definition gridSize : Z := 44.

(** ** Placement validator *)

(** The callback handed to [shipPieces.some] inside [canPlaceShipAt]: does
    [ship] block cell [(r, c)] for the ship called [nm]? *)
Definition blocks (nm : string) (r c : Z) (ship : Ship) : bool :=
  match position ship with
  | None => false
  | Some (p0, p1) =>
      if String.eqb (name ship) nm then false
      else if horizontal ship
           then (r =? p0) && (c >=? p1) && (c <? p1 + size ship)
           else (c =? p1) && (r >=? p0) && (r <? p0 + size ship)
  end.

(** [canPlaceShipAt(name, size, startRow, startCol, horizontal)], reading
    the fleet [shipPieces].  The [for] loop with its early [return false]
    is the conjunction over [i = 0 .. size-1]. *)
Definition canPlaceShipAt (shipPieces : Fleet) (nm : string)
    (sz startRow startCol : Z) (horiz : bool) : bool :=
  if (startRow <? 0) || (startRow >=? 10) || (startCol <? 0) || (startCol >=? 10)
  then false
  else if horiz && (startCol + sz >? 10) then false
  else if negb horiz && (startRow + sz >? 10) then false
  else forallb
         (fun i =>
            let r := startRow + (if horiz then 0 else i) in
            let c := startCol + (if horiz then i else 0) in
            let overlapping := existsb (blocks nm r c) shipPieces in
            negb overlapping)
         (seqZ 0 sz).

(** The state update of [placeShip] and [rotateShip]: [prev.map] over the
    fleet, rewriting every ship whose name matches. *)
Definition setPosition (nm : string) (startRow startCol : Z) (s : Ship) : Ship :=
  if String.eqb (name s) nm
  then mkShip (name s) (size s) (Some (startRow, startCol)) (color s) (horizontal s)
  else s.

Definition setPose (nm : string) (topRow leftCol : Z) (s : Ship) : Ship :=
  if String.eqb (name s) nm
  then mkShip (name s) (size s) (Some (topRow, leftCol)) (color s)
              (negb (horizontal s))
  else s.

(** [placeShip]: the returned boolean and the next fleet. *)
Definition placeShip (shipPieces : Fleet) (nm : string)
    (sz startRow startCol : Z) (horiz : bool) : bool * Fleet :=
  if negb (canPlaceShipAt shipPieces nm sz startRow startCol horiz)
  then (false, shipPieces)
  else (true, setPosition nm startRow startCol <$> shipPieces).

(** ** Occupied cells and the fleet invariant *)

(** The cells covered by [sz] consecutive cells from [(r, c)], rightward when
    horizontal and downward otherwise. *)
Definition cellsAt (sz r c : Z) (horiz : bool) : list (Z * Z) :=
  (fun i => if horiz then (r, c + i) else (r + i, c)) <$> seqZ 0 sz.

Definition shipCells (s : Ship) : list (Z * Z) :=
  match position s with
  | None => []
  | Some (r, c) => cellsAt (size s) r c (horizontal s)
  end.

Definition inGrid (cell : Z * Z) : Prop :=
  0 <= cell.1 < 10 ∧ 0 <= cell.2 < 10.

(** Placed ships lie in the 10x10 grid and two ships at different slots of
    the fleet share no cell. *)
Definition fleetInvariant (fleet : Fleet) : Prop :=
  (∀ s, s ∈ fleet → ∀ cell, cell ∈ shipCells s → inGrid cell) ∧
  (∀ i j s t, i ≠ j → fleet !! i = Some s → fleet !! j = Some t →
     ∀ cell, cell ∈ shipCells s → cell ∉ shipCells t).

(** Ship names identify the ships of a fleet. *)
Definition uniqueNames (fleet : Fleet) : Prop := NoDup (name <$> fleet).

(** ** Rotation search *)

(** A search state [[row, col, offset]]: a candidate pivot cell and the
    index of that pivot inside the reoriented ship. *)
Abbreviation State := (Z * Z * Z)%type.

Definition neighbors (st : State) : list State :=
  let '(row, col, offset) := st in
  [ (row - 1, col, offset);
    (row + 1, col, offset);
    (row, col - 1, offset);
    (row, col + 1, offset) ].

(** One round of the inner [for] loop of [rotateShip].  The [Set<string>]
    of keys [`${r},${c},${o}`] is modelled as a set of triples, the key
    being an injective rendering of the triple. *)
Definition visit (qv : list State * gset State) (n : State)
    : list State * gset State :=
  let '(r, c, o) := n in
  if (r >=? 0) && (r <? 10) && (c >=? 0) && (c <? 10)
     && bool_decide (n ∉ qv.2)
  then (qv.1 ++ [n], {[ n ]} ∪ qv.2)
  else qv.

Definition expand (st : State) (queue : list State) (visited : gset State)
    : list State * gset State :=
  foldl visit (queue, visited) (neighbors st).

(** How the [while] loop ends.  The loop of the source has no iteration
    bound; [OutOfFuel] is the artefact of the bounded recursion and is shown
    below never to occur with [searchFuel]. *)
Inductive Outcome :=
  | Found (st : State)
  | Exhausted
  | OutOfFuel.

Section Search.
Variable accept : State → bool.

(** [while (queue.length > 0)]: take the head, stop on the first accepted
    state, otherwise push the unvisited in-board neighbours. *)
Fixpoint bfs (fuel : nat) (queue : list State) (visited : gset State)
    : Outcome :=
  match fuel with
  | O => OutOfFuel
  | S fuel' =>
      match queue with
      | [] => Exhausted
      | st :: rest =>
          if accept st then Found st
          else let '(queue', visited') := expand st rest visited in
               bfs fuel' queue' visited'
      end
  end.

(** The states taken off the queue by the same loop, in order. *)
Fixpoint dequeued (fuel : nat) (queue : list State) (visited : gset State)
    : list State :=
  match fuel with
  | O => []
  | S fuel' =>
      match queue with
      | [] => []
      | st :: rest =>
          if accept st then [st]
          else let '(queue', visited') := expand st rest visited in
               st :: dequeued fuel' queue' visited'
      end
  end.
End Search.

(** The traversal order of the search when no state is ever accepted. *)
Definition bfsOrder (fuel : nat) (queue : list State) (visited : gset State)
    : list State :=
  dequeued (fun _ => false) fuel queue visited.

(** [Math.floor((ship.size - 1) / 2)] *)
Definition pivotOffset (ship : Ship) : Z := (size ship - 1) / 2.

(** The first queue entry: the centre cell of the ship. *)
Definition pivot (ship : Ship) (p0 p1 : Z) : State :=
  let offset := pivotOffset ship in
  (p0 + (if horizontal ship then 0 else offset),
   p1 + (if horizontal ship then offset else 0),
   offset).

(** The initial queue: the pivot and, for ships of even length, the other
    middle cell. *)
Definition seeds (ship : Ship) (p0 p1 : Z) : list State :=
  let '(pivotRow, pivotCol, offset) := pivot ship p0 p1 in
  (pivotRow, pivotCol, offset)
  :: (if Z.rem (size ship) 2 =? 0
      then [ (pivotRow + (if horizontal ship then 0 else 1),
              pivotCol + (if horizontal ship then 1 else 0),
              offset + 1) ]
      else []).

(** The origin [(topRow, leftCol)] that a search state stands for. *)
Definition originOf (ship : Ship) (st : State) : Z * Z :=
  let '(row, col, offset) := st in
  (row - (if horizontal ship then offset else 0),
   col - (if horizontal ship then 0 else offset)).

(** The test of the loop body: can the ship sit at that origin with its
    orientation flipped? *)
Definition fits (shipPieces : Fleet) (ship : Ship) (st : State) : bool :=
  let '(topRow, leftCol) := originOf ship st in
  canPlaceShipAt shipPieces (name ship) (size ship) topRow leftCol
                 (negb (horizontal ship)).

(** Two queue entries at the start plus at most 200 pushes, and one more
    round to see the empty queue. *)
Definition searchFuel : nat := 203.

Definition rotateSearch (shipPieces : Fleet) (ship : Ship) (p0 p1 : Z)
    : Outcome :=
  bfs (fits shipPieces ship) searchFuel (seeds ship p0 p1)
      {[ pivot ship p0 p1 ]}.

(** [rotateShip(ship)]: the next fleet. *)
Definition rotateShip (shipPieces : Fleet) (ship : Ship) : Fleet :=
  match position ship with
  | None => shipPieces
  | Some (p0, p1) =>
      match rotateSearch shipPieces ship p0 p1 with
      | Found st =>
          let '(topRow, leftCol) := originOf ship st in
          setPose (name ship) topRow leftCol <$> shipPieces
      | Exhausted | OutOfFuel => shipPieces
      end
  end.

(** The states the search of [rotateShip] takes off its queue. *)
Definition rotateVisits (shipPieces : Fleet) (ship : Ship) (p0 p1 : Z)
    : list State :=
  dequeued (fits shipPieces ship) searchFuel (seeds ship p0 p1)
           {[ pivot ship p0 p1 ]}.

(** ** Snapping a dragged ship to the grid *)

Module Snap.
Import PrimFloat SpecFloat FloatOps.
Local Open Scope float_scope.

(** The [transform] of a drag modifier. *)
Record Transform := mkTransform {
  x : float;
  y : float;
  scaleX : float;
  scaleY : float
}.

(** The fields of a bounding rectangle that the modifier reads. *)
Record ClientRect := mkRect {
  top : float;
  left : float
}.

(** The integer nearest to [m / 2 ^ k], halves rounded up. *)
Definition roundHalfUp (m k : Z) : Z := ((2 * m + 2 ^ k) / 2 ^ (k + 1))%Z.

(** [Math.round]: NaN, the infinities and the zeros are returned as they
    are; a finite number, of exact value [m * 2 ^ e] up to its sign, gives
    the integer nearest to that value, halves rounded up, and a zero result
    keeps the sign of the argument.  With [0 <= e] the number is an integer
    already. *)
Definition Math_round (v : float) : float :=
  match Prim2SF v with
  | S754_finite s m e =>
      if (0 <=? e)%Z then v
      else match roundHalfUp (if s then Z.neg m else Z.pos m) (- e) with
           | Z0 => SF2Prim (S754_zero s)
           | Z.pos n => SF2Prim (S754_finite false n 0)
           | Z.neg n => SF2Prim (S754_finite true n 0)
           end
  | _ => v
  end.

(** [gridSize] as a pixel quantity: the number 44. *)
Definition cell : float := SF2Prim (S754_finite false (Z.to_pos gridSize) 0).

(** [snapToGrid({transform, draggingNodeRect})]; [board] is the bounding
    rectangle of [boardRef.current] when the board is mounted. *)
Definition snapToGrid (board draggingNodeRect : option ClientRect)
    (transform : Transform) : Transform :=
  match board, draggingNodeRect with
  | Some boardRect, Some nodeRect =>
      let nearestRow :=
        Math_round ((top nodeRect - top boardRect + y transform) / cell) in
      let nearestCol :=
        Math_round ((left nodeRect - left boardRect + x transform) / cell) in
      if (0 <=? nearestRow) && (nearestRow <? 10)
         && (0 <=? nearestCol) && (nearestCol <? 10)
      then mkTransform
             (nearestCol * cell - (left nodeRect - left boardRect))
             (nearestRow * cell - (top nodeRect - top boardRect))
             (scaleX transform) (scaleY transform)
      else transform
  | _, _ => transform
  end.


Definition shipAt : ClientRect := mkRect 120 60.

Definition dragBy : Transform := mkTransform 30 70 1 1.



End Snap.

(** ** Definitions used to state and prove the properties *)

(** The candidate cells are free of every other placed ship. *)
Definition clearOf (fleet : Fleet) (nm : string) (cells : list (Z * Z)) : Prop :=
  ∀ s, s ∈ fleet → name s ≠ nm → ∀ cell, cell ∈ cells → cell ∉ shipCells s.

Definition onBoard (st : State) : Prop :=
  0 <= st.1.1 < 10 ∧ 0 <= st.1.2 < 10.

(** The states the search can ever push: board cells paired with one of the
    offsets in play. *)
Definition boardCells : list (Z * Z) := cprod (seqZ 0 10) (seqZ 0 10).

Definition layer (o : Z) : list State :=
  (fun rc : Z * Z => (rc.1, rc.2, o)) <$> boardCells.

Definition universe (offsets : list Z) : gset State :=
  list_to_set (offsets ≫= layer).

(** Queue length plus the number of states still unvisited: every round of
    the loop lowers it by one. *)
Definition slack (offsets : list Z) (queue : list State) (visited : gset State)
    : nat :=
  (length queue + base.size (universe offsets ∖ visited))%nat.

(** The cell of the seed that carries offset [o]. *)
Fixpoint seedCell (sds : list State) (o : Z) : option (Z * Z) :=
  match sds with
  | [] => None
  | (r, c, o') :: rest => if o' =? o then Some (r, c) else seedCell rest o
  end.

(** Grid steps between a state's pivot cell and the seed of its offset. *)
Definition dist (sds : list State) (st : State) : Z :=
  match seedCell sds st.2 with
  | Some (sr, sc) => Z.abs (st.1.1 - sr) + Z.abs (st.1.2 - sc)
  | None => 0
  end.

(** A pivot state on the board whose offset is that of a seed. *)
Definition candidate (sds : list State) (st : State) : Prop :=
  onBoard st ∧ is_Some (seedCell sds st.2).

(** The loop invariant.  [done] are the states already taken off the
    queue; the queue is [A ++ B], where the states of [A] not yet done lie
    [k] steps from their seed and those of [B] lie [k + 1] steps away. *)
Record Layered (accept : State → bool) (sds : list State) (k : Z)
    (done A B : list State) (visited : gset State) : Prop := {
  lay_k : 0 <= k;
  lay_done : ∀ x, x ∈ done → accept x = false;
  lay_nb : ∀ x n, x ∈ done → n ∈ neighbors x → onBoard n → n ∈ visited;
  lay_vis : ∀ x, x ∈ visited → x ∈ done ∨ x ∈ A ++ B;
  lay_off : ∀ x, x ∈ A ++ B → is_Some (seedCell sds x.2);
  lay_low : ∀ y, candidate sds y → dist sds y < k → y ∈ done;
  lay_A : ∀ x, x ∈ A → x ∈ done ∨ dist sds x = k;
  lay_B : ∀ x, x ∈ B → x ∈ done ∨ dist sds x = k + 1;
  lay_cur : ∀ y, candidate sds y → dist sds y = k → y ∈ done ∨ y ∈ A
}.

(** A decision procedure for the invariant on concrete fleets. *)
Definition inGridb (cell : Z * Z) : bool :=
  (0 <=? cell.1) && (cell.1 <? 10) && (0 <=? cell.2) && (cell.2 <? 10).

Definition disjointb (cells cells' : list (Z * Z)) : bool :=
  forallb (fun cell => negb (bool_decide (cell ∈ cells'))) cells.

Definition fleetInvariantb (fleet : Fleet) : bool :=
  forallb (fun s => forallb inGridb (shipCells s)) fleet
  && forallb
       (fun a : nat * Ship =>
          forallb
            (fun b : nat * Ship =>
               bool_decide (a.1 = b.1)
               || disjointb (shipCells a.2) (shipCells b.2))
            (imap pair fleet))
       (imap pair fleet).

(** The pivot state that stands for the origin [(topRow, leftCol)] of the
    flipped ship, read at the offset of the first seed. *)
Definition pivotAt (ship : Ship) (topRow leftCol : Z) : State :=
  (topRow + (if horizontal ship then pivotOffset ship else 0),
   leftCol + (if horizontal ship then 0 else pivotOffset ship),
   pivotOffset ship).

(** ** Concrete fleets *)

(** The opening of the game: the carrier dropped along the top row. *)
Definition openingFleet : Fleet :=
  [ mkShip "Carrier" 5 (Some (0, 0)) "#1E40AF" true;
    mkShip "Battleship" 4 None "#3B82F6" true;
    mkShip "Cruiser" 3 None "#60A5FA" true;
    mkShip "Submarine" 3 None "#93C5FD" true;
    mkShip "Destroyer" 2 None "#C0D6F0" true ].

Definition cruiserAtCorner : Ship :=
  mkShip "Cruiser" 3 (Some (0, 0)) "#60A5FA" true.

Definition cruiserFleet : Fleet :=
  [ mkShip "Carrier" 5 None "#1E40AF" true;
    mkShip "Battleship" 4 None "#3B82F6" true;
    cruiserAtCorner;
    mkShip "Submarine" 3 None "#93C5FD" true;
    mkShip "Destroyer" 2 None "#C0D6F0" true ].

(** A fleet that three legal drops produce: the carrier along row 1, the
    battleship along row 2 and the destroyer in the top left corner. *)
Definition crowdedCorner : Fleet :=
  [ mkShip "Carrier" 5 (Some (1, 0)) "#1E40AF" true;
    mkShip "Battleship" 4 (Some (2, 0)) "#3B82F6" true;
    mkShip "Cruiser" 3 None "#60A5FA" true;
    mkShip "Submarine" 3 None "#93C5FD" true;
    mkShip "Destroyer" 2 (Some (0, 0)) "#C0D6F0" true ].

Definition destroyerAtCorner : Ship :=
  mkShip "Destroyer" 2 (Some (0, 0)) "#C0D6F0" true.

(** Two ships of ten cells on the two top rows: no column is free for
    either of them. *)
Definition longShip : Ship := mkShip "Long" 10 (Some (0, 0)) "#1E40AF" true.

Definition wallFleet : Fleet :=
  [ longShip; mkShip "Wall" 10 (Some (1, 0)) "#3B82F6" true ].

Ltac in_fleet H :=
  repeat (apply elem_of_cons in H as [-> | H]); [.. | by apply elem_of_nil in H].

(** ** Drag data of the drag-and-drop context *)

(** The values that reach the type guards of [Game]: what a draggable or a
    droppable registered as [data], or nothing.  Numbers are integers, as
    everywhere in this development. *)
Inductive JSValue :=
  | JUndefined
  | JNull
  | JBool (b : bool)
  | JNum (n : Z)
  | JStr (s : string)
  | JArr (elems : list JSValue)
  | JObj (fields : gmap string JSValue).

(** [val.key] for the keys the guards read; a missing key, and any of these
    keys on an array, reads [undefined]. *)
Definition getProp (val : JSValue) (key : string) : JSValue :=
  match val with
  | JObj fields => default JUndefined (fields !! key)
  | _ => JUndefined
  end.

Definition isString (val : JSValue) : bool :=
  match val with JStr _ => true | _ => false end.

Definition isNumber (val : JSValue) : bool :=
  match val with JNum _ => true | _ => false end.

Definition isBoolean (val : JSValue) : bool :=
  match val with JBool _ => true | _ => false end.

(** [typeof val === "object" && val !== null] *)
Definition isObject (val : JSValue) : bool :=
  match val with JObj _ | JArr _ => true | _ => false end.

Definition isDragShipItem (val : JSValue) : bool :=
  isObject val
  && isString (getProp val "name")
  && isNumber (getProp val "size")
  && isString (getProp val "color")
  && isBoolean (getProp val "horizontal").

Definition isDragShipData (data : JSValue) : bool :=
  isObject data
  && match getProp data "type" with
     | JStr tag => String.eqb tag "SHIP"
     | _ => false
     end
  && isDragShipItem (getProp data "item").

Definition isCellData (data : JSValue) : bool :=
  isObject data
  && isNumber (getProp data "row")
  && isNumber (getProp data "col").

(** Reading a field at the type its guard has established. *)
Definition strOf (val : JSValue) : string :=
  match val with JStr s => s | _ => "" end.

Definition numOf (val : JSValue) : Z :=
  match val with JNum n => n | _ => 0 end.

Definition boolOf (val : JSValue) : bool :=
  match val with JBool b => b | _ => false end.

Module Drag.
(** [type DragShipItem] *)
Record Item := mkItem {
  name : string;
  size : Z;
  color : string;
  horizontal : bool
}.
End Drag.

Definition itemOf (val : JSValue) : Drag.Item :=
  Drag.mkItem (strOf (getProp val "name")) (numOf (getProp val "size"))
              (strOf (getProp val "color")) (boolOf (getProp val "horizontal")).

(** The [data] that [ShipDraggable] registers for a ship. *)
Definition shipData (ship : Ship) : JSValue :=
  JObj (<["type" := JStr "SHIP"]>
          (<["item" :=
               JObj (<["name" := JStr (name ship)]>
                       (<["size" := JNum (size ship)]>
                          (<["color" := JStr (color ship)]>
                             (<["horizontal" := JBool (horizontal ship)]> ∅))))]>
             ∅)).

(** The [data] that [BoardCell] registers for a cell. *)
Definition cellData (row col : Z) : JSValue :=
  JObj (<["row" := JNum row]> (<["col" := JNum col]> ∅)).

(** ** The state of [Game] and its event handlers *)

(** The three [useState] cells the handlers write. *)
Record Game := mkGame {
  shipPieces : Fleet;
  activeDrag : option Drag.Item;
  selectedShip : option string
}.

Definition initialGame : Game := mkGame defaultShips None None.

(** [onDragStart]; [data] is [event.active.data.current]. *)
Definition onDragStart (st : Game) (data : JSValue) : Game :=
  if isDragShipData data
  then mkGame (shipPieces st) (Some (itemOf (getProp data "item")))
              (selectedShip st)
  else st.

(** [onDragEnd]; [overData] is [event.over?.data.current], [undefined] when
    the drag ends over no droppable. *)
Definition onDragEnd (st : Game) (data overData : JSValue) : Game :=
  if negb (isDragShipData data) || negb (isCellData overData)
  then mkGame (shipPieces st) None (selectedShip st)
  else
    let item := itemOf (getProp data "item") in
    let row := numOf (getProp overData "row") in
    let col := numOf (getProp overData "col") in
    mkGame
      (if canPlaceShipAt (shipPieces st) (Drag.name item) (Drag.size item)
                         row col (Drag.horizontal item)
       then (placeShip (shipPieces st) (Drag.name item) (Drag.size item)
                       row col (Drag.horizontal item)).2
       else shipPieces st)
      None
      (Some (Drag.name item)).

(** [onDragCancel] *)
Definition onDragCancel (st : Game) : Game :=
  mkGame (shipPieces st) None (selectedShip st).

(** [s.name === selectedShip] *)
Definition isSelected (st : Game) (s : Ship) : bool :=
  match selectedShip st with
  | Some sel => String.eqb (name s) sel
  | None => false
  end.

(** The [onClick] of the Rotate button.  [None] stands for the [TypeError]
    raised when [find] returns [undefined] and [rotateShip] reads its
    [position]. *)
Definition onRotateClick (st : Game) : option Game :=
  match List.find (isSelected st) (shipPieces st) with
  | None => None
  | Some ship =>
      Some (mkGame (rotateShip (shipPieces st) ship) (activeDrag st)
                   (selectedShip st))
  end.

(** The [invalid] flag of [ShipDraggable], which paints the ship red;
    [overData] is [over?.data?.current]. *)
Definition invalid (st : Game) (overData : JSValue) (ship : Ship) : bool :=
  if match activeDrag st with
     | Some item => String.eqb (name ship) (Drag.name item)
     | None => false
     end
     && isCellData overData
  then negb (canPlaceShipAt (shipPieces st) (name ship) (size ship)
               (numOf (getProp overData "row"))
               (numOf (getProp overData "col")) (horizontal ship))
  else false.

(** The states the setup screen can reach, provided every drag carries the
    data of a ship of the current fleet (what [ShipDraggable] registers on
    each render); the droppable under the pointer is arbitrary. *)
Inductive reachable : Game → Prop :=
  | reach_init : reachable initialGame
  | reach_start st s :
      reachable st → s ∈ shipPieces st →
      reachable (onDragStart st (shipData s))
  | reach_end st s overData :
      reachable st → s ∈ shipPieces st →
      reachable (onDragEnd st (shipData s) overData)
  | reach_cancel st : reachable st → reachable (onDragCancel st)
  | reach_rotate st st' :
      reachable st → onRotateClick st = Some st' → reachable st'.

(** What never changes about a ship. *)
Definition fixedPart (s : Ship) : string * Z * string :=
  (name s, size s, color s).

(** How often a state occurs in a list of states. *)
Definition occurrences (st : State) (l : list State) : nat :=
  length (filter (fun y => y = st) l).

(** The conditions kept by every handler. *)
Definition settled (st : Game) : Prop :=
  fixedPart <$> shipPieces st = fixedPart <$> defaultShips ∧
  fleetInvariant (shipPieces st) ∧
  (∀ sel, selectedShip st = Some sel →
     ∃ s, s ∈ shipPieces st ∧ name s = sel).

(** The cruiser in the middle of the board, every other ship in the tray. *)
Definition cruiserAtCentre : Ship :=
  mkShip "Cruiser" 3 (Some (4, 4)) "#60A5FA" true.

Definition centreFleet : Fleet :=
  [ mkShip "Carrier" 5 None "#1E40AF" true;
    mkShip "Battleship" 4 None "#3B82F6" true;
    cruiserAtCentre;
    mkShip "Submarine" 3 None "#93C5FD" true;
    mkShip "Destroyer" 2 None "#C0D6F0" true ].

(** * Properties *)

(** ** The validator against occupied cells *)

Lemma elem_of_cellsAt sz r c horiz cell :
  cell ∈ cellsAt sz r c horiz ↔
  ∃ i, 0 <= i < sz ∧ cell = (if horiz then (r, c + i) else (r + i, c)).
Proof.
  unfold cellsAt. rewrite list_elem_of_fmap.
  split.
  - intros (i & -> & Hi). apply elem_of_seqZ in Hi. exists i. split; [lia | done].
  - intros (i & Hi & ->). exists i. split; [done |]. apply elem_of_seqZ. lia.
Qed.

Lemma cellsAt_nonpos sz r c horiz : sz <= 0 → cellsAt sz r c horiz = [].
Proof.
  intros Hsz. unfold cellsAt, seqZ.
  replace (Z.to_nat sz) with 0%nat by lia. done.
Qed.

(** The range test of the source is membership in the blocking ship's cells. *)
Lemma blocks_true nm r c s :
  blocks nm r c s = true ↔ name s ≠ nm ∧ (r, c) ∈ shipCells s.
Proof.
  unfold blocks, shipCells.
  destruct (position s) as [[p0 p1]|].
  2:{ split; [done | intros [_ H]; by apply not_elem_of_nil in H]. }
  rewrite elem_of_cellsAt.
  destruct (String.eqb_spec (name s) nm) as [Heq|Hne].
  { split; [done | intros [H _]; done]. }
  destruct (horizontal s).
  - rewrite !andb_true_iff, Z.eqb_eq, Z.geb_le, Z.ltb_lt. split.
    + intros [[-> H1] H2]. split; [done |]. exists (c - p1). split; [lia |].
      f_equal. lia.
    + intros [_ (i & Hi & Heq)]. injection Heq as -> ->. lia.
  - rewrite !andb_true_iff, Z.eqb_eq, Z.geb_le, Z.ltb_lt. split.
    + intros [[-> H1] H2]. split; [done |]. exists (r - p0). split; [lia |].
      f_equal. lia.
    + intros [_ (i & Hi & Heq)]. injection Heq as -> ->. lia.
Qed.

Lemma overlapping_true (fleet : Fleet) nm r c :
  existsb (blocks nm r c) fleet = true ↔
  ∃ s, s ∈ fleet ∧ name s ≠ nm ∧ (r, c) ∈ shipCells s.
Proof.
  rewrite existsb_exists. split.
  - intros (s & Hin & Hb). exists s. rewrite list_elem_of_In.
    by apply blocks_true in Hb.
  - intros (s & Hin & Hb). exists s. rewrite <- list_elem_of_In.
    split; [done |]. by apply blocks_true.
Qed.

Lemma loop_true (fleet : Fleet) nm (sz r c : Z) (horiz : bool) :
  forallb
    (fun i => negb (existsb (blocks nm (r + (if horiz then 0 else i))
                                       (c + (if horiz then i else 0))) fleet))
    (seqZ 0 sz) = true ↔
  clearOf fleet nm (cellsAt sz r c horiz).
Proof.
  rewrite forallb_forall. unfold clearOf. split.
  - intros H s Hs Hne cell Hcell Hin.
    apply elem_of_cellsAt in Hcell as (i & Hi & ->).
    specialize (H i). rewrite <- list_elem_of_In, elem_of_seqZ in H.
    specialize (H ltac:(lia)). apply negb_true_iff in H.
    assert (existsb (blocks nm (r + (if horiz then 0 else i))
                               (c + (if horiz then i else 0))) fleet = true)
      as Hex; [| congruence].
    apply overlapping_true. exists s. repeat split; [done .. |].
    destruct horiz; by rewrite Z.add_0_r.
  - intros H i Hi. apply list_elem_of_In, elem_of_seqZ in Hi.
    apply negb_true_iff, not_true_is_false. intros Hex.
    apply overlapping_true in Hex as (s & Hs & Hne & Hin).
    apply (H s Hs Hne _) in Hin; [done |].
    apply elem_of_cellsAt. exists i. split; [lia |].
    destruct horiz; by rewrite Z.add_0_r.
Qed.

(** Whatever the size, an accepted placement is in the grid and clear. *)
Lemma canPlaceShipAt_sound fleet nm sz r c horiz :
  canPlaceShipAt fleet nm sz r c horiz = true →
  (∀ cell, cell ∈ cellsAt sz r c horiz → inGrid cell) ∧
  clearOf fleet nm (cellsAt sz r c horiz).
Proof.
  unfold canPlaceShipAt.
  destruct ((r <? 0) || (r >=? 10) || (c <? 0) || (c >=? 10)) eqn:Ho; [done |].
  destruct (horiz && (c + sz >? 10)) eqn:Hh; [done |].
  destruct (negb horiz && (r + sz >? 10)) eqn:Hv; [done |].
  intros Hloop. apply loop_true in Hloop. split; [| done].
  intros cell (i & Hi & ->)%elem_of_cellsAt.
  apply orb_false_iff in Ho as [Ho Ho4]. apply orb_false_iff in Ho as [Ho Ho3].
  apply orb_false_iff in Ho as [Ho1 Ho2].
  unfold inGrid. destruct horiz; simpl in *; lia.
Qed.

(** For a ship of positive size the validator decides exactly that. *)
Lemma canPlaceShipAt_true_iff fleet nm sz r c horiz :
  0 < sz →
  canPlaceShipAt fleet nm sz r c horiz = true ↔
  (∀ cell, cell ∈ cellsAt sz r c horiz → inGrid cell) ∧
  clearOf fleet nm (cellsAt sz r c horiz).
Proof.
  intros Hsz. split; [apply canPlaceShipAt_sound |].
  intros [Hgrid Hclear]. unfold canPlaceShipAt.
  assert (inGrid (r, c)) as [H1 H2].
  { apply Hgrid, elem_of_cellsAt. exists 0. split; [lia |].
    destruct horiz; by rewrite Z.add_0_r. }
  assert (inGrid (if horiz then (r, c + (sz - 1)) else (r + (sz - 1), c)))
    as Hlast.
  { apply Hgrid, elem_of_cellsAt. exists (sz - 1). split; [lia | done]. }
  simpl in H1, H2.
  replace ((r <? 0) || (r >=? 10) || (c <? 0) || (c >=? 10)) with false by lia.
  unfold inGrid in Hlast. apply loop_true in Hclear.
  destruct horiz; simpl in *.
  - by replace (c + sz >? 10) with false by lia.
  - by replace (r + sz >? 10) with false by lia.
Qed.

(** For a size that is not positive the loop does not run: the validator
    only checks that the origin is in the grid. *)
Lemma canPlaceShipAt_nonpos fleet nm sz r c horiz :
  sz <= 0 →
  canPlaceShipAt fleet nm sz r c horiz
  = (0 <=? r) && (r <? 10) && (0 <=? c) && (c <? 10).
Proof.
  intros Hsz. unfold canPlaceShipAt.
  assert (seqZ 0 sz = []) as ->
    by (unfold seqZ; by replace (Z.to_nat sz) with 0%nat by lia).
  destruct ((r <? 0) || (r >=? 10) || (c <? 0) || (c >=? 10)) eqn:Ho; [lia |].
  destruct horiz; cbn [andb negb forallb].
  - replace (c + sz >? 10) with false by lia. lia.
  - replace (r + sz >? 10) with false by lia. lia.
Qed.

(** ** One expansion step of the search *)

Lemma visit_fresh q v (n : State) :
  onBoard n → n ∉ v → visit (q, v) n = (q ++ [n], {[ n ]} ∪ v).
Proof.
  destruct n as [[r c] o]. intros [Hr Hc] Hn. simpl in Hr, Hc.
  unfold visit. simpl. rewrite (bool_decide_eq_true_2 _ Hn).
  by replace ((r >=? 0) && (r <? 10) && (c >=? 0) && (c <? 10)) with true by lia.
Qed.

Lemma visit_skip q v (n : State) :
  ¬ (onBoard n ∧ n ∉ v) → visit (q, v) n = (q, v).
Proof.
  destruct n as [[r c] o]. intros Hn. unfold visit. simpl.
  destruct ((r >=? 0) && (r <? 10) && (c >=? 0) && (c <? 10)) eqn:Hb; [| done].
  destruct (bool_decide ((r, c, o) ∉ v)) eqn:Hd; [| done].
  apply bool_decide_eq_true_1 in Hd. exfalso. apply Hn. split; [| done].
  unfold onBoard. simpl. lia.
Qed.

(** The pushes of one inner loop: the queue grows at its end by a
    duplicate-free list of unvisited neighbours on the board, which are the
    states added to the visited set. *)
Lemma foldl_visit (ns : list State) : ∀ q v,
  ∃ new, foldl visit (q, v) ns = (q ++ new, list_to_set new ∪ v) ∧
         NoDup new ∧
         (∀ n, n ∈ new → n ∈ ns ∧ onBoard n ∧ n ∉ v) ∧
         (∀ n, n ∈ ns → onBoard n → n ∈ new ∨ n ∈ v).
Proof.
  induction ns as [|n ns IH]; intros q v; simpl.
  - exists []. rewrite app_nil_r. split; [| split; [| split]].
    + f_equal. set_solver.
    + constructor.
    + by intros m Hm%elem_of_nil.
    + by intros m Hm%elem_of_nil.
  - destruct (decide (onBoard n ∧ n ∉ v)) as [[Hb Hv]|Hno].
    + rewrite (visit_fresh _ _ _ Hb Hv).
      destruct (IH (q ++ [n]) ({[ n ]} ∪ v)) as (new & Heq & Hnd & Hnew & Hall).
      exists (n :: new). rewrite Heq. split; [| split; [| split]].
      * rewrite <- app_assoc. simpl. f_equal. set_solver.
      * constructor; [| done]. intros Hin. apply Hnew in Hin. set_solver.
      * intros m [->|Hm]%elem_of_cons.
        { split; [left | done]. }
        apply Hnew in Hm as (H1 & H2 & H3).
        split; [by right |]. split; [done | set_solver].
      * intros m [->|Hm]%elem_of_cons Hmb.
        { left. left. }
        destruct (Hall m Hm Hmb) as [H1|H1]; [left; by right |].
        apply elem_of_union in H1 as [->%elem_of_singleton|H1];
          [left; left | by right].
    + rewrite (visit_skip _ _ _ Hno).
      destruct (IH q v) as (new & Heq & Hnd & Hnew & Hall).
      exists new. rewrite Heq. split; [done |]. split; [done |]. split.
      * intros m Hm. apply Hnew in Hm as (H1 & H2 & H3).
        split; [by right | done].
      * intros m [->|Hm]%elem_of_cons Hmb; [| by apply Hall].
        right. destruct (decide (n ∈ v)) as [|Hnv]; [done |].
        exfalso. by apply Hno.
Qed.

Lemma expand_spec st queue visited :
  ∃ new, expand st queue visited = (queue ++ new, list_to_set new ∪ visited) ∧
         NoDup new ∧
         (∀ n, n ∈ new → n ∈ neighbors st ∧ onBoard n ∧ n ∉ visited) ∧
         (∀ n, n ∈ neighbors st → onBoard n → n ∈ new ∨ n ∈ visited).
Proof. apply foldl_visit. Qed.

Lemma neighbors_offset (st n : State) : n ∈ neighbors st → n.2 = st.2.
Proof.
  destruct st as [[r c] o]. unfold neighbors.
  rewrite !elem_of_cons, elem_of_nil. intros [->|[->|[->|[->|[]]]]]; done.
Qed.

(** ** Termination of the search *)

Lemma elem_of_layer o (st : State) : st ∈ layer o ↔ onBoard st ∧ st.2 = o.
Proof.
  unfold layer, boardCells, onBoard. rewrite list_elem_of_fmap.
  destruct st as [[r c] o']. cbn [fst snd]. split.
  - intros ([r' c'] & Heq & [Hr Hc]%list_elem_of_cprod). cbn [fst snd] in *.
    apply elem_of_seqZ in Hr, Hc. injection Heq as -> -> ->. split; [lia | done].
  - intros [[Hr Hc] ->]. exists (r, c). split; [done |].
    apply list_elem_of_cprod. cbn [fst snd]. rewrite !elem_of_seqZ. lia.
Qed.

Lemma elem_of_universe offsets (st : State) :
  st ∈ universe offsets ↔ onBoard st ∧ st.2 ∈ offsets.
Proof.
  unfold universe. rewrite elem_of_list_to_set, list_elem_of_bind. split.
  - intros (o & [Hb <-]%elem_of_layer & Ho). done.
  - intros [Hb Ho]. exists (st.2). split; [| done]. by apply elem_of_layer.
Qed.

Lemma size_list_to_set_le (l : list State) :
  (base.size (list_to_set l : gset State) <= length l)%nat.
Proof.
  induction l as [|a l IH].
  - rewrite list_to_set_nil, size_empty. done.
  - rewrite list_to_set_cons, size_union_alt, size_singleton. cbn [length].
    pose proof (subseteq_size (list_to_set l ∖ {[ a ]}) (list_to_set l : gset State)
                  ltac:(set_solver)).
    lia.
Qed.

Lemma size_universe offsets :
  (base.size (universe offsets) <= 100 * length offsets)%nat.
Proof.
  unfold universe. etrans; [apply size_list_to_set_le |].
  induction offsets as [|o os IH]; [simpl; lia |].
  change ((o :: os) ≫= layer) with (layer o ++ (os ≫= layer)).
  rewrite length_app. unfold layer at 1. rewrite length_fmap.
  change (length boardCells) with 100%nat. cbn [length]. lia.
Qed.

Lemma expand_slack offsets st queue visited queue' visited' :
  st.2 ∈ offsets →
  expand st queue visited = (queue', visited') →
  slack offsets queue' visited' = slack offsets queue visited ∧
  (∀ n, n ∈ queue' → n ∈ queue ∨ n.2 = st.2).
Proof.
  intros Hst Hex.
  destruct (expand_spec st queue visited) as (new & Heq & Hnd & Hnew & _).
  rewrite Hex in Heq. injection Heq as -> ->. split.
  { unfold slack. rewrite length_app.
    assert (universe offsets ∖ visited
            = (universe offsets ∖ (list_to_set new ∪ visited))
                ∪ list_to_set new) as ->.
    { apply set_eq. intros n. rewrite elem_of_union, !elem_of_difference,
        elem_of_union, elem_of_list_to_set. split.
      - intros [Hu Hv]. destruct (decide (n ∈ new)); [by right | left].
        split; [done | tauto].
      - intros [[Hu Hv]|Hn]; [tauto |].
        destruct (Hnew n Hn) as (Hnb & Hb & Hv). split; [| done].
        apply elem_of_universe. split; [done |].
        by rewrite (neighbors_offset _ _ Hnb). }
    pose proof (size_union (universe offsets ∖ (list_to_set new ∪ visited))
                           (list_to_set new)) as Hsz.
    rewrite Hsz.
    - pose proof (size_list_to_set (C := gset State) new Hnd) as Hlen.
      rewrite Hlen. lia.
    - intros n [_ Hn]%elem_of_difference Hn'. apply Hn, elem_of_union. by left. }
  intros n [Hn|Hn]%elem_of_app; [by left | right].
    apply Hnew in Hn as [Hn _]. by apply neighbors_offset.
Qed.

Section SearchFacts.
Variable accept : State → bool.

(** With more fuel than slack the loop reaches its own end. *)
Lemma bfs_enough_fuel offsets : ∀ fuel queue visited,
  (∀ st, st ∈ queue → st.2 ∈ offsets) →
  (slack offsets queue visited < fuel)%nat →
  bfs accept fuel queue visited ≠ OutOfFuel.
Proof.
  induction fuel as [|fuel IH]; intros queue visited Hoff Hlt; [lia |].
  simpl. destruct queue as [|st rest]; [done |].
  destruct (accept st); [done |].
  destruct (expand st rest visited) as [queue' visited'] eqn:Hex.
  assert (st.2 ∈ offsets) as Hst by (apply Hoff; left).
  destruct (expand_slack offsets _ _ _ _ _ Hst Hex) as [Hsl Hq].
  apply IH.
  - intros n [Hn| ->]%Hq; [| done]. apply Hoff. by right.
  - unfold slack in *. simpl in Hlt. lia.
Qed.

(** Once the loop ends, further fuel changes nothing. *)
Lemma bfs_more_fuel : ∀ fuel fuel' queue visited,
  bfs accept fuel queue visited ≠ OutOfFuel →
  (fuel <= fuel')%nat →
  bfs accept fuel' queue visited = bfs accept fuel queue visited.
Proof.
  induction fuel as [|fuel IH]; intros fuel' queue visited Hne Hle; [done |].
  destruct fuel' as [|fuel']; [lia |].
  simpl in *. destruct queue as [|st rest]; [done |].
  destruct (accept st); [done |].
  destruct (expand st rest visited) as [queue' visited'].
  apply IH; [done | lia].
Qed.

(** The outcome and the dequeued states of one run. *)
Lemma bfs_found_dequeued : ∀ fuel queue visited st,
  bfs accept fuel queue visited = Found st →
  ∃ before, dequeued accept fuel queue visited = before ++ [st] ∧
            (∀ y, y ∈ before → accept y = false) ∧ accept st = true.
Proof.
  induction fuel as [|fuel IH]; intros queue visited st Hf; [done |].
  simpl in *. destruct queue as [|hd rest]; [done |].
  destruct (accept hd) eqn:Hacc.
  - injection Hf as ->. exists []. split; [done |]. split; [| done].
    by intros y Hy%elem_of_nil.
  - destruct (expand hd rest visited) as [queue' visited'].
    destruct (IH _ _ _ Hf) as (before & Heq & Hpre & Hst).
    exists (hd :: before). rewrite Heq. split; [done |]. split; [| done].
    intros y [->|Hy]%elem_of_cons; [done | by apply Hpre].
Qed.

(** The search stops at the first accepted state of the traversal that
    accepts nothing. *)
Lemma bfs_found_first : ∀ fuel queue visited st,
  bfs accept fuel queue visited = Found st →
  ∃ before after, bfsOrder fuel queue visited = before ++ st :: after ∧
                  (∀ y, y ∈ before → accept y = false) ∧ accept st = true.
Proof.
  unfold bfsOrder.
  induction fuel as [|fuel IH]; intros queue visited st Hf; [done |].
  simpl in *. destruct queue as [|hd rest]; [done |].
  destruct (expand hd rest visited) as [queue' visited'] eqn:Hex.
  destruct (accept hd) eqn:Hacc.
  - injection Hf as ->. exists [], (dequeued (fun _ => false) fuel queue' visited').
    split; [done |]. split; [| done]. by intros y Hy%elem_of_nil.
  - destruct (IH _ _ _ Hf) as (before & after & Heq & Hpre & Hst).
    exists (hd :: before), after. rewrite Heq. split; [done |]. split; [| done].
    intros y [->|Hy]%elem_of_cons; [done | by apply Hpre].
Qed.
End SearchFacts.

(** ** The search proceeds by distance from the seeds *)

Lemma seedCell_elem sds o r c : seedCell sds o = Some (r, c) → (r, c, o) ∈ sds.
Proof.
  induction sds as [|[[r' c'] o'] rest IH]; simpl; [done |].
  destruct (Z.eqb_spec o' o) as [->|Hne].
  - intros [= -> ->]. left.
  - intros H. right. by apply IH.
Qed.

Lemma seedCell_seed sds o r c :
  NoDup (snd <$> sds) → (r, c, o) ∈ sds → seedCell sds o = Some (r, c).
Proof.
  induction sds as [|[[r' c'] o'] rest IH]; simpl; [by intros _ ?%elem_of_nil |].
  intros [Hnotin Hnd]%list.NoDup_cons [Heq|Hin]%elem_of_cons.
  - injection Heq as -> -> ->. by rewrite Z.eqb_refl.
  - destruct (Z.eqb_spec o' o) as [->|Hne]; [| by apply IH].
    exfalso. apply Hnotin. apply list_elem_of_fmap. by exists (r, c, o).
Qed.

Lemma dist_nonneg sds st : 0 <= dist sds st.
Proof. unfold dist. destruct (seedCell sds st.2) as [[sr sc]|]; lia. Qed.

Lemma dist_neighbor sds (st n : State) :
  is_Some (seedCell sds st.2) → n ∈ neighbors st →
  is_Some (seedCell sds n.2) ∧
  (dist sds n = dist sds st + 1 ∨ dist sds n = dist sds st - 1).
Proof.
  intros Hs Hn. pose proof (neighbors_offset _ _ Hn) as Ho.
  unfold dist. rewrite Ho. split; [done |].
  destruct Hs as [[sr sc] ->].
  destruct st as [[r c] o], n as [[r' c'] o']. unfold neighbors in Hn.
  rewrite !elem_of_cons, elem_of_nil in Hn. cbn [fst snd].
  destruct Hn as [Hn|[Hn|[Hn|[Hn|[]]]]]; injection Hn as -> -> ->; lia.
Qed.

Section Layers.
Variable accept : State → bool.
Variable sds : list State.
Hypothesis Hboard : ∀ s, s ∈ sds → onBoard s.
Hypothesis Hoffsets : NoDup (snd <$> sds).

Lemma dist_zero y : candidate sds y → dist sds y = 0 → y ∈ sds.
Proof.
  intros [_ [[sr sc] Hs]] Hd. unfold dist in Hd. rewrite Hs in Hd.
  apply seedCell_elem in Hs. destruct y as [[r c] o]. cbn [fst snd] in *.
  by replace r with sr by lia; replace c with sc by lia.
Qed.

(** On the board, every candidate away from its seed has a neighbour one
    step closer of which it is a successor. *)
Lemma closer y :
  candidate sds y → 0 < dist sds y →
  ∃ z, candidate sds z ∧ dist sds z = dist sds y - 1 ∧ y ∈ neighbors z.
Proof.
  intros [Hb [[sr sc] Hs]] Hd. unfold dist in *.
  pose proof (Hboard _ (seedCell_elem _ _ _ _ Hs)) as [Hsr Hsc].
  destruct y as [[r c] o]. destruct Hb as [Hr Hc].
  unfold candidate, onBoard. cbn [fst snd] in *. rewrite Hs in Hd.
  destruct (Z.lt_trichotomy r sr) as [Hlt|[->|Hgt]].
  - exists (r + 1, c, o). cbn [fst snd]. rewrite Hs. split; [| split].
    + split; [lia | done].
    + lia.
    + unfold neighbors. replace (r + 1 - 1) with r by lia. left.
  - destruct (Z.lt_trichotomy c sc) as [Hlt|[->|Hgt]].
    + exists (sr, c + 1, o). cbn [fst snd]. rewrite Hs. split; [| split].
      * split; [lia | done].
      * lia.
      * unfold neighbors. replace (c + 1 - 1) with c by lia.
        right. right. left.
    + lia.
    + exists (sr, c - 1, o). cbn [fst snd]. rewrite Hs. split; [| split].
      * split; [lia | done].
      * lia.
      * unfold neighbors. replace (c - 1 + 1) with c by lia.
        right. right. right. left.
  - exists (r - 1, c, o). cbn [fst snd]. rewrite Hs. split; [| split].
    + split; [lia | done].
    + lia.
    + unfold neighbors. replace (r - 1 + 1) with r by lia. right. left.
Qed.

Lemma Layered_init (visited : gset State) :
  (∀ x, x ∈ visited → x ∈ sds) → Layered accept sds 0 [] sds [] visited.
Proof.
  intros Hv. split.
  - done.
  - by intros x Hx%elem_of_nil.
  - by intros x n Hx%elem_of_nil.
  - intros x Hx. right. rewrite app_nil_r. by apply Hv.
  - intros [[r c] o] Hx. rewrite app_nil_r in Hx. cbn [snd].
    rewrite (seedCell_seed _ _ _ _ Hoffsets Hx). by eexists.
  - intros y _ Hy. pose proof (dist_nonneg sds y). lia.
  - intros [[r c] o] Hx. right. unfold dist. cbn [fst snd].
    rewrite (seedCell_seed _ _ _ _ Hoffsets Hx). lia.
  - by intros x Hx%elem_of_nil.
  - intros y Hy Hd. right. by apply dist_zero.
Qed.

(** When the current layer is used up, the next one takes its place. *)
Lemma Layered_shift k done B visited :
  Layered accept sds k done [] B visited → Layered accept sds (k + 1) done B [] visited.
Proof.
  intros [Lk Ldone Lnb Lvis Loff Llow LA LB Lcur]. split; try done.
  - lia.
  - intros x Hx. rewrite app_nil_r. by apply Lvis.
  - intros x Hx. rewrite app_nil_r in Hx. by apply Loff.
  - intros y Hy Hd. destruct (decide (dist sds y = k)) as [Heq|Hne].
    + destruct (Lcur y Hy Heq) as [H|H%elem_of_nil]; done.
    + apply Llow; [done | lia].
  - by intros x Hx%elem_of_nil.
  - intros y Hy Hd.
    destruct (closer y Hy) as (z & Hz & Hdz & Hyz); [lia |].
    destruct (Lcur z Hz ltac:(lia)) as [Hzd|Hzd%elem_of_nil]; [| done].
    destruct Hy as [Hyb Hys].
    by apply Lvis, (Lnb z y).
Qed.

(** One round of the loop on a head that is not accepted. *)
Lemma Layered_step k done x A B visited queue' visited' :
  Layered accept sds k done (x :: A) B visited →
  accept x = false →
  expand x (A ++ B) visited = (queue', visited') →
  ∃ new, queue' = A ++ (B ++ new) ∧
         Layered accept sds k (x :: done) A (B ++ new) visited'.
Proof.
  intros [Lk Ldone Lnb Lvis Loff Llow LA LB Lcur] Hacc Hex.
  destruct (expand_spec x (A ++ B) visited) as (new & Heq & _ & Hnew & Hall).
  rewrite Hex in Heq. injection Heq as -> ->.
  exists new. split; [by rewrite app_assoc |].
  assert (is_Some (seedCell sds x.2)) as Hxs by (apply Loff; left).
  assert (∀ n, n ∈ new →
            is_Some (seedCell sds n.2) ∧ (n ∈ done ∨ dist sds n = k + 1))
    as Hfresh.
  { intros n Hn. destruct (Hnew n Hn) as (Hnb & Hb & Hv).
    destruct (dist_neighbor sds x n Hxs Hnb) as [Hns Hd]. split; [done |].
    destruct (LA x ltac:(left)) as [Hxd|Hxk].
    - exfalso. apply Hv. by apply (Lnb x n).
    - destruct Hd as [Hd|Hd]; [right; lia | left].
      apply Llow; [done | lia]. }
  split.
  - done.
  - intros y [->|Hy]%elem_of_cons; [done | by apply Ldone].
  - intros y n [->|Hy]%elem_of_cons Hn Hb.
    + apply elem_of_union. rewrite elem_of_list_to_set.
      by apply Hall.
    + apply elem_of_union. right. by apply (Lnb y n).
  - intros y [Hy|Hy]%elem_of_union.
    + right. rewrite !elem_of_app. right. right.
      by apply elem_of_list_to_set in Hy.
    + destruct (Lvis y Hy) as [Hd|Hq]; [left; by right |].
      apply elem_of_cons in Hq as [->|Hq]; [left; left |].
      right. rewrite app_assoc. apply elem_of_app. by left.
  - intros y Hy. rewrite app_assoc in Hy.
    apply elem_of_app in Hy as [Hy|Hy]; [apply Loff; by right |].
    by apply Hfresh.
  - intros y Hy Hd. right. by apply Llow.
  - intros y Hy. destruct (LA y ltac:(by right)) as [Hd|Hd];
      [left; by right | by right].
  - intros y [Hy|Hy]%elem_of_app.
    + destruct (LB y Hy) as [Hd|Hd]; [left; by right | by right].
    + destruct (Hfresh y Hy) as [_ [Hd|Hd]]; [left; by right | by right].
  - intros y Hy Hd. destruct (Lcur y Hy Hd) as [H|H]; [left; by right |].
    apply elem_of_cons in H as [->|H]; [left; left | by right].
Qed.

(** A queue that is not empty can be read with its head in the current
    layer. *)
Lemma Layered_head k done A B x rest visited :
  A ++ B = x :: rest → Layered accept sds k done A B visited →
  ∃ k' A' B', rest = A' ++ B' ∧ Layered accept sds k' done (x :: A') B' visited.
Proof.
  intros Hq L. destruct A as [|a A].
  - simpl in Hq. subst B. exists (k + 1), rest, [].
    split; [by rewrite app_nil_r | by apply Layered_shift].
  - injection Hq as -> <-. by exists k, A, B.
Qed.

(** The state at which the search stops is nearest to its seed among all
    accepted candidates. *)
Lemma bfs_nearest : ∀ fuel queue visited st,
  bfs accept fuel queue visited = Found st →
  ∀ k done A B, queue = A ++ B → Layered accept sds k done A B visited →
  ∀ y, candidate sds y → accept y = true → dist sds st <= dist sds y.
Proof.
  induction fuel as [|fuel IH]; intros queue visited st Hf; [done |].
  intros k done A B Hq L. simpl in Hf.
  destruct queue as [|x rest]; [done |].
  destruct (Layered_head _ _ _ _ _ _ _ (eq_sym Hq) L)
    as (k' & A' & B' & -> & L').
  destruct (accept x) eqn:Hacc.
  - injection Hf as <-. intros y Hy Hay.
    destruct L' as [Lk Ldone Lnb Lvis Loff Llow LA LB Lcur].
    destruct (LA x ltac:(left)) as [Hxd|Hxk].
    { apply Ldone in Hxd. congruence. }
    destruct (Z_lt_le_dec (dist sds y) k') as [Hlt|Hle]; [| lia].
    apply Llow, Ldone in Hlt; [congruence | done].
  - destruct (expand x (A' ++ B') visited) as [queue' visited'] eqn:Hex.
    destruct (Layered_step _ _ _ _ _ _ _ _ L' Hacc Hex) as (new & -> & L'').
    by apply (IH _ _ _ Hf k' (x :: done) A' (B' ++ new)).
Qed.

(** When the queue runs empty every candidate has been tried. *)
Lemma Layered_empty k done visited :
  Layered accept sds k done [] [] visited → ∀ y, candidate sds y → y ∈ done.
Proof.
  intros [Lk Ldone Lnb Lvis Loff Llow LA LB Lcur].
  assert (∀ m, 0 <= m → ∀ y, candidate sds y → dist sds y = m → y ∈ done)
    as Hall.
  { apply (Zlt_0_ind
             (fun m => ∀ y, candidate sds y → dist sds y = m → y ∈ done)).
    intros m IHm Hm y Hy Hd.
    destruct (Z_lt_le_dec m k) as [Hlt|Hle]; [apply Llow; [done | lia] |].
    destruct (decide (m = k)) as [->|Hne].
    { destruct (Lcur y Hy Hd) as [H|H%elem_of_nil]; done. }
    destruct (closer y Hy) as (z & Hz & Hdz & Hyz); [lia |].
    assert (z ∈ done) as Hzd by (apply (IHm (m - 1)); [lia | done | lia]).
    destruct Hy as [Hyb Hys].
    destruct (Lvis y (Lnb z y Hzd Hyz Hyb)) as [H|H%elem_of_nil]; done. }
  intros y Hy. apply (Hall (dist sds y)); [apply dist_nonneg | done | done].
Qed.

Lemma bfs_exhaustive : ∀ fuel queue visited,
  bfs accept fuel queue visited = Exhausted →
  ∀ k done A B, queue = A ++ B → Layered accept sds k done A B visited →
  ∀ y, candidate sds y → accept y = false.
Proof.
  induction fuel as [|fuel IH]; intros queue visited Hf; [done |].
  intros k done A B Hq L. simpl in Hf.
  destruct queue as [|x rest].
  - symmetry in Hq. apply app_eq_nil in Hq as [-> ->].
    intros y Hy. eapply lay_done; [exact L |]. by eapply Layered_empty.
  - destruct (Layered_head _ _ _ _ _ _ _ (eq_sym Hq) L)
      as (k' & A' & B' & -> & L').
    destruct (accept x) eqn:Hacc; [done |].
    destruct (expand x (A' ++ B') visited) as [queue' visited'] eqn:Hex.
    destruct (Layered_step _ _ _ _ _ _ _ _ L' Hacc Hex) as (new & -> & L'').
    by apply (IH _ _ Hf k' (x :: done) A' (B' ++ new)).
Qed.
End Layers.

(** ** The search of [rotateShip] *)

Lemma seeds_cases ship p0 p1 :
  seeds ship p0 p1 = [pivot ship p0 p1] ∨
  seeds ship p0 p1 =
    [pivot ship p0 p1;
     ((pivot ship p0 p1).1.1 + (if horizontal ship then 0 else 1),
      (pivot ship p0 p1).1.2 + (if horizontal ship then 1 else 0),
      pivotOffset ship + 1)].
Proof.
  unfold seeds, pivot. cbn [fst snd].
  destruct (Z.rem (size ship) 2 =? 0); [by right | by left].
Qed.

Lemma seeds_offsets ship p0 p1 st :
  st ∈ seeds ship p0 p1 → st.2 ∈ [pivotOffset ship; pivotOffset ship + 1].
Proof.
  destruct (seeds_cases ship p0 p1) as [-> | ->]; unfold pivot;
    rewrite !elem_of_cons, !elem_of_nil; intros [-> | H]; cbn [snd]; try tauto.
  destruct H as [-> | []]. cbn [snd]. tauto.
Qed.

Lemma seeds_NoDup ship p0 p1 : NoDup (snd <$> seeds ship p0 p1).
Proof.
  destruct (seeds_cases ship p0 p1) as [-> | ->]; unfold pivot; cbn.
  - apply NoDup_singleton.
  - apply list.NoDup_cons. split; [| apply NoDup_singleton].
    rewrite elem_of_cons, elem_of_nil. lia.
Qed.

Lemma pivot_in_seeds ship p0 p1 : pivot ship p0 p1 ∈ seeds ship p0 p1.
Proof. destruct (seeds_cases ship p0 p1) as [-> | ->]; left. Qed.

Lemma lookup_cellsAt sz r c horiz i :
  0 <= i < sz →
  cellsAt sz r c horiz !! Z.to_nat i
  = Some (if horiz then (r, c + i) else (r + i, c)).
Proof.
  intros Hi. unfold cellsAt. rewrite list_lookup_fmap.
  rewrite (lookup_seqZ_lt 0 sz (Z.to_nat i)) by lia.
  cbn. rewrite Z2Nat.id by lia. by destruct horiz.
Qed.

Lemma rem_2_even sz : 0 <= sz → (Z.rem sz 2 =? 0) = Z.even sz.
Proof.
  intros Hsz. rewrite Z.rem_mod_nonneg by lia.
  rewrite Zmod_even. by destruct (Z.even sz).
Qed.

Lemma pivotOffset_range ship :
  0 < size ship →
  0 <= pivotOffset ship < size ship ∧
  (Z.even (size ship) = true → pivotOffset ship + 1 < size ship).
Proof.
  intros Hsz. unfold pivotOffset. split.
  - split; [apply Z.div_pos; lia |].
    apply Z.div_lt_upper_bound; lia.
  - intros He. apply Z.even_spec in He as [k Hk].
    assert ((size ship - 1) / 2 = k - 1) as ->; [| lia].
    replace (size ship - 1) with (1 + (k - 1) * 2) by lia.
    by rewrite Z.div_add by lia.
Qed.

(** The seeds are cells of the ship, at the indices given by their offsets. *)
Lemma seeds_are_cells ship p0 p1 r c o :
  position ship = Some (p0, p1) → 0 < size ship →
  (r, c, o) ∈ seeds ship p0 p1 →
  0 <= o < size ship ∧ shipCells ship !! Z.to_nat o = Some (r, c).
Proof.
  intros Hpos Hsz Hin. pose proof (pivotOffset_range ship Hsz) as [Hoff Heven].
  unfold shipCells. rewrite Hpos. unfold seeds, pivot in Hin.
  rewrite rem_2_even in Hin by lia.
  apply elem_of_cons in Hin as [Heq|Hin].
  - injection Heq as -> -> ->. split; [done |].
    rewrite lookup_cellsAt by done.
    destruct (horizontal ship); by rewrite Z.add_0_r.
  - destruct (Z.even (size ship)) eqn:He; [| by apply elem_of_nil in Hin].
    apply list_elem_of_singleton in Hin. injection Hin as -> -> ->.
    specialize (Heven eq_refl). split; [lia |].
    rewrite lookup_cellsAt by lia.
    destruct (horizontal ship); f_equal; f_equal; lia.
Qed.

Lemma seeds_onBoard ship p0 p1 :
  position ship = Some (p0, p1) → 0 < size ship →
  (∀ cell, cell ∈ shipCells ship → inGrid cell) →
  ∀ s, s ∈ seeds ship p0 p1 → onBoard s.
Proof.
  intros Hpos Hsz Hgrid [[r c] o] Hs.
  destruct (seeds_are_cells ship p0 p1 r c o Hpos Hsz Hs) as [_ Hcell].
  apply list_elem_of_lookup_2, Hgrid in Hcell. exact Hcell.
Qed.

(** The loop of [rotateShip] always reaches its end within [searchFuel]
    rounds, and behaves the same under any larger bound. *)
Lemma rotateSearch_total fleet ship p0 p1 :
  rotateSearch fleet ship p0 p1 ≠ OutOfFuel ∧
  ∀ fuel, (searchFuel <= fuel)%nat →
    bfs (fits fleet ship) fuel (seeds ship p0 p1) {[ pivot ship p0 p1 ]}
    = rotateSearch fleet ship p0 p1.
Proof.
  assert (rotateSearch fleet ship p0 p1 ≠ OutOfFuel) as Hne.
  { unfold rotateSearch.
    apply (bfs_enough_fuel _ [pivotOffset ship; pivotOffset ship + 1]).
    - apply seeds_offsets.
    - unfold slack, searchFuel.
      set (U := universe [pivotOffset ship; pivotOffset ship + 1]).
      pose proof (size_universe [pivotOffset ship; pivotOffset ship + 1]) as Hu.
      fold U in Hu.
      assert (U ∖ {[ pivot ship p0 p1 ]} ⊆ U) as Hsub
        by (intros x [Hx _]%elem_of_difference; exact Hx).
      apply subseteq_size in Hsub.
      assert (length (seeds ship p0 p1) <= 2)%nat
        by (destruct (seeds_cases ship p0 p1) as [-> | ->]; simpl; lia).
      cbn [length] in Hu. lia. }
  split; [done |]. intros fuel Hfuel. by apply bfs_more_fuel.
Qed.

Lemma rotateSearch_found_fits fleet ship p0 p1 st :
  rotateSearch fleet ship p0 p1 = Found st → fits fleet ship st = true.
Proof.
  intros Hf. by destruct (bfs_found_dequeued _ _ _ _ _ Hf) as (_ & _ & _ & ?).
Qed.

Lemma rotateSearch_Layered fleet ship p0 p1 :
  position ship = Some (p0, p1) → 0 < size ship →
  (∀ cell, cell ∈ shipCells ship → inGrid cell) →
  Layered (fits fleet ship) (seeds ship p0 p1) 0 [] (seeds ship p0 p1) []
          {[ pivot ship p0 p1 ]}.
Proof.
  intros Hpos Hsz Hgrid. apply Layered_init.
  - apply seeds_NoDup.
  - intros x ->%elem_of_singleton. apply pivot_in_seeds.
Qed.

(** What the two state updates leave at each slot of the fleet. *)
Lemma setPosition_slot (fleet : Fleet) nm r c i s :
  fleet !! i = Some s →
  (setPosition nm r c <$> fleet) !! i
  = Some (if String.eqb (name s) nm
          then mkShip (name s) (size s) (Some (r, c)) (color s) (horizontal s)
          else s).
Proof. intros Hi. by rewrite list_lookup_fmap, Hi. Qed.

Lemma setPose_slot (fleet : Fleet) nm r c i s :
  fleet !! i = Some s →
  (setPose nm r c <$> fleet) !! i
  = Some (if String.eqb (name s) nm
          then mkShip (name s) (size s) (Some (r, c)) (color s)
                      (negb (horizontal s))
          else s).
Proof. intros Hi. by rewrite list_lookup_fmap, Hi. Qed.

Lemma rotateShip_found fleet ship p0 p1 st :
  position ship = Some (p0, p1) →
  rotateSearch fleet ship p0 p1 = Found st →
  rotateShip fleet ship
  = setPose (name ship) (originOf ship st).1 (originOf ship st).2 <$> fleet.
Proof.
  intros Hpos Hf. unfold rotateShip. rewrite Hpos, Hf.
  by destruct (originOf ship st).
Qed.

Lemma rotateShip_found_slot fleet ship p0 p1 st i s :
  position ship = Some (p0, p1) →
  rotateSearch fleet ship p0 p1 = Found st →
  fleet !! i = Some s →
  rotateShip fleet ship !! i
  = Some (if String.eqb (name s) (name ship)
          then mkShip (name s) (size s) (Some (originOf ship st)) (color s)
                      (negb (horizontal s))
          else s).
Proof.
  intros Hpos Hf Hi. rewrite (rotateShip_found fleet ship p0 p1 st Hpos Hf).
  rewrite (setPose_slot fleet _ _ _ i s Hi). by destruct (originOf ship st).
Qed.

(** C1.  When [rotateShip] commits, the pose it commits is that of the first
    state, in the order in which the breadth-first traversal takes states
    off its queue (neighbours pushed in the order up, down, left, right),
    at which the flipped ship can be placed: in the fleet it returns, every
    ship with the name of the rotated one has its origin at the origin that
    state stands for and its orientation flipped, and every other ship is
    as before.  For a ship lying in the grid
    it follows that no state at which the flipped ship can be placed is
    fewer grid steps away from its seed, the distance of a state being
    counted between its pivot cell and the seed that carries its offset.
    The seeds are the cell of the ship at index [(size - 1) / 2] and, for
    ships of even size only, also the cell at the next index. *)
Theorem rotateShip_first_and_nearest fleet ship p0 p1 st :
  position ship = Some (p0, p1) →
  0 < size ship →
  (∀ cell, cell ∈ shipCells ship → inGrid cell) →
  rotateSearch fleet ship p0 p1 = Found st →
  rotateShip fleet ship
  = setPose (name ship) (originOf ship st).1 (originOf ship st).2 <$> fleet ∧
  (∀ i s, fleet !! i = Some s →
     rotateShip fleet ship !! i
     = Some (if String.eqb (name s) (name ship)
             then mkShip (name s) (size s) (Some (originOf ship st))
                         (color s) (negb (horizontal s))
             else s)) ∧
  (∃ before after,
     bfsOrder searchFuel (seeds ship p0 p1) {[ pivot ship p0 p1 ]}
     = before ++ st :: after ∧
     (∀ y, y ∈ before → fits fleet ship y = false) ∧
     fits fleet ship st = true) ∧
  (∀ r c o, neighbors (r, c, o)
            = [(r - 1, c, o); (r + 1, c, o); (r, c - 1, o); (r, c + 1, o)]) ∧
  (∀ y, candidate (seeds ship p0 p1) y → fits fleet ship y = true →
        dist (seeds ship p0 p1) st <= dist (seeds ship p0 p1) y) ∧
  (snd <$> seeds ship p0 p1
   = if Z.even (size ship)
     then [(size ship - 1) / 2; (size ship - 1) / 2 + 1]
     else [(size ship - 1) / 2]) ∧
  (∀ r c o, (r, c, o) ∈ seeds ship p0 p1 →
            shipCells ship !! Z.to_nat o = Some (r, c)).
Proof.
  intros Hpos Hsz Hgrid Hf.
  split; [by apply (rotateShip_found fleet ship p0 p1) |].
  split; [intros i s Hi; by apply (rotateShip_found_slot fleet ship p0 p1) |].
  split; [exact (bfs_found_first (fits fleet ship) _ _ _ _ Hf) |].
  split; [done |].
  split.
  { apply (bfs_nearest (fits fleet ship) (seeds ship p0 p1)
             (seeds_onBoard ship p0 p1 Hpos Hsz Hgrid)
             searchFuel (seeds ship p0 p1) {[ pivot ship p0 p1 ]} st Hf
             0 [] (seeds ship p0 p1) []).
    - by rewrite app_nil_r.
    - by apply rotateSearch_Layered. }
  split.
  { unfold seeds, pivot. rewrite rem_2_even by lia.
    by destruct (Z.even (size ship)). }
  intros r c o Hin. by apply (seeds_are_cells ship p0 p1).
Qed.

Lemma bfs_step accept fuel st rest visited :
  bfs accept (S fuel) (st :: rest) visited
  = if accept st then Found st
    else bfs accept fuel (expand st rest visited).1 (expand st rest visited).2.
Proof.
  simpl. destruct (accept st); [done |]. by destruct (expand st rest visited).
Qed.

(** C6.  [rotateShip] always returns: its search ends either on a state to
    commit or with an empty queue.  It leaves the fleet as it is when the
    ship is unplaced and when the search ends with an empty queue. *)
Theorem rotateShip_no_commit fleet ship :
  (position ship = None → rotateShip fleet ship = fleet) ∧
  (∀ p0 p1, position ship = Some (p0, p1) →
     ((∃ st, rotateSearch fleet ship p0 p1 = Found st) ∨
      rotateSearch fleet ship p0 p1 = Exhausted) ∧
     (rotateSearch fleet ship p0 p1 = Exhausted →
      rotateShip fleet ship = fleet)).
Proof.
  split.
  - intros Hpos. unfold rotateShip. by rewrite Hpos.
  - intros p0 p1 Hpos. split.
    + destruct (rotateSearch_total fleet ship p0 p1) as [Hne _].
      destruct (rotateSearch fleet ship p0 p1) as [st| |];
        [left; by exists st | by right | done].
    + intros Hex. unfold rotateShip. by rewrite Hpos, Hex.
Qed.

(** C7.  A ship of three cells lying horizontally at [(0,0)], with cells
    [(0,1)], [(1,1)] and [(2,1)] free of every other ship: [rotateShip]
    stops at the pivot one step below the centre and commits the vertical
    pose with origin [(0,1)], which covers [(0,1)], [(1,1)], [(2,1)]. *)
Theorem rotateShip_three_at_origin fleet ship :
  ship ∈ fleet →
  size ship = 3 → horizontal ship = true → position ship = Some (0, 0) →
  (∀ s, s ∈ fleet → name s ≠ name ship →
        ∀ r, 0 <= r <= 2 → (r, 1) ∉ shipCells s) →
  rotateSearch fleet ship 0 0 = Found (1, 1, 1) ∧
  rotateShip fleet ship = setPose (name ship) 0 1 <$> fleet ∧
  mkShip (name ship) 3 (Some (0, 1)) (color ship) false
    ∈ rotateShip fleet ship ∧
  shipCells (mkShip (name ship) 3 (Some (0, 1)) (color ship) false)
  = [(0, 1); (1, 1); (2, 1)].
Proof.
  intros Hin Hsz Hh Hpos Hfree.
  assert (rotateSearch fleet ship 0 0 = Found (1, 1, 1)) as Hfound.
  { unfold rotateSearch, seeds, pivot, pivotOffset. rewrite Hsz, Hh.
    change ((3 - 1) / 2) with 1. change (Z.rem 3 2 =? 0) with false.
    change (0 + 0) with 0. change (0 + 1) with 1.
    unfold searchFuel. rewrite bfs_step.
    assert (fits fleet ship (0, 1, 1) = false) as ->.
    { unfold fits, originOf. by rewrite Hh, Hsz. }
    assert (expand (0, 1, 1) [] {[ (0, 1, 1) ]}
            = ([(1, 1, 1); (0, 0, 1); (0, 2, 1)],
               list_to_set [(0, 2, 1); (0, 0, 1); (1, 1, 1); (0, 1, 1)]))
      as -> by (vm_compute; reflexivity).
    cbn [fst snd]. rewrite bfs_step.
    assert (fits fleet ship (1, 1, 1) = true) as ->; [| done].
    unfold fits, originOf. rewrite Hh, Hsz.
    change (1 - 1) with 0. change (1 - 0) with 1. change (negb true) with false.
    apply canPlaceShipAt_true_iff; [lia |]. split.
    - intros cell (i & Hi & ->)%elem_of_cellsAt. unfold inGrid. simpl. lia.
    - intros s Hs Hne cell (i & Hi & ->)%elem_of_cellsAt.
      apply (Hfree s Hs Hne); lia. }
  split; [done |].
  assert (rotateShip fleet ship = setPose (name ship) 0 1 <$> fleet) as Hrot.
  { rewrite (rotateShip_found fleet ship 0 0 (1, 1, 1) Hpos Hfound).
    unfold originOf. by rewrite Hh. }
  split; [done |]. split; [| done].
  rewrite Hrot. apply list_elem_of_fmap. exists ship. split; [| done].
  unfold setPose. rewrite String.eqb_refl, Hsz, Hh. done.
Qed.

(** C2.  Rotating the destroyer of [crowdedCorner], a fleet that three
    accepted calls of [placeShip] produce from the initial one: the second
    seed [(0,1,1)] is pushed without being recorded as visited, is pushed
    again from its neighbour [(1,1,1)], and is taken off the queue twice
    (rounds 2 and 11) before the search commits at [(3,0,0)]. *)
Theorem rotateShip_second_seed_twice :
  placeShip
    (placeShip (placeShip defaultShips "Carrier" 5 1 0 true).2
               "Battleship" 4 2 0 true).2
    "Destroyer" 2 0 0 true
  = (true, crowdedCorner) ∧
  destroyerAtCorner ∈ crowdedCorner ∧
  seeds destroyerAtCorner 0 0 = [(0, 0, 0); (0, 1, 1)] ∧
  rotateVisits crowdedCorner destroyerAtCorner 0 0
  = [(0, 0, 0); (0, 1, 1); (1, 0, 0); (0, 1, 0); (1, 1, 1); (0, 0, 1);
     (0, 2, 1); (2, 0, 0); (1, 1, 0); (0, 2, 0); (0, 1, 1); (2, 1, 1);
     (1, 0, 1); (1, 2, 1); (0, 3, 1); (3, 0, 0)] ∧
  rotateSearch crowdedCorner destroyerAtCorner 0 0 = Found (3, 0, 0).
Proof.
  split; [| split; [| split; [| split]]].
  - vm_compute. reflexivity.
  - unfold crowdedCorner, destroyerAtCorner. do 4 right. left.
  - reflexivity.
  - vm_compute. reflexivity.
  - vm_compute. reflexivity.
Qed.

(** ** The fleet invariant under the two updates *)

Lemma uniqueNames_lookup (fleet : Fleet) i j s t :
  uniqueNames fleet → fleet !! i = Some s → fleet !! j = Some t →
  name s = name t → i = j.
Proof.
  intros Hu Hi Hj Hn.
  apply (NoDup_lookup (name <$> fleet) i j (name s) Hu).
  - by rewrite list_lookup_fmap, Hi.
  - by rewrite list_lookup_fmap, Hj, Hn.
Qed.

Lemma uniqueNames_elem (fleet : Fleet) s t :
  uniqueNames fleet → s ∈ fleet → t ∈ fleet → name s = name t → s = t.
Proof.
  intros Hu [i Hi]%list_elem_of_lookup [j Hj]%list_elem_of_lookup Hn.
  pose proof (uniqueNames_lookup fleet i j s t Hu Hi Hj Hn) as ->. congruence.
Qed.

(** Re-posing the ship called [nm] onto cells that lie in the grid and are
    clear of the other ships keeps the invariant. *)
Lemma repose_invariant (fleet : Fleet) nm (g : Ship → Ship) cells :
  uniqueNames fleet → fleetInvariant fleet →
  (∀ s, name s ≠ nm → g s = s) →
  (∀ s, s ∈ fleet → name s = nm → shipCells (g s) = cells) →
  (∀ cell, cell ∈ cells → inGrid cell) →
  clearOf fleet nm cells →
  fleetInvariant (g <$> fleet).
Proof.
  intros Hu [Hgrid Hdisj] Hother Hnamed Hcells Hclear. split.
  - intros s' (s & -> & Hs)%list_elem_of_fmap cell Hcell.
    destruct (decide (name s = nm)) as [Heq|Hne].
    + rewrite (Hnamed s Hs Heq) in Hcell. by apply Hcells.
    + rewrite (Hother s Hne) in Hcell. by apply (Hgrid s).
  - intros i j s' t' Hij Hi Hj cell Hcs Hct.
    rewrite list_lookup_fmap in Hi, Hj.
    destruct (fleet !! i) as [s|] eqn:Hsi; [| done].
    destruct (fleet !! j) as [t|] eqn:Htj; [| done].
    injection Hi as <-. injection Hj as <-.
    assert (s ∈ fleet) as Hs by (by apply list_elem_of_lookup_2 in Hsi).
    assert (t ∈ fleet) as Ht by (by apply list_elem_of_lookup_2 in Htj).
    destruct (decide (name s = nm)) as [Hsn|Hsn];
      destruct (decide (name t = nm)) as [Htn|Htn].
    + apply Hij. apply (uniqueNames_lookup fleet i j s t); congruence.
    + rewrite (Hnamed s Hs Hsn) in Hcs. rewrite (Hother t Htn) in Hct.
      by apply (Hclear t Ht Htn cell).
    + rewrite (Hother s Hsn) in Hcs. rewrite (Hnamed t Ht Htn) in Hct.
      by apply (Hclear s Hs Hsn cell).
    + rewrite (Hother s Hsn) in Hcs. rewrite (Hother t Htn) in Hct.
      by apply (Hdisj i j s t Hij Hsi Htj cell).
Qed.

Lemma setPosition_other nm r c s : name s ≠ nm → setPosition nm r c s = s.
Proof.
  intros Hne. unfold setPosition.
  by destruct (String.eqb_spec (name s) nm).
Qed.

Lemma setPose_other nm r c s : name s ≠ nm → setPose nm r c s = s.
Proof.
  intros Hne. unfold setPose.
  by destruct (String.eqb_spec (name s) nm).
Qed.

Lemma placeShip_invariant fleet nm sz r c horiz :
  uniqueNames fleet → fleetInvariant fleet →
  (∀ s, s ∈ fleet → name s = nm → size s = sz ∧ horizontal s = horiz) →
  fleetInvariant (placeShip fleet nm sz r c horiz).2.
Proof.
  intros Hu Hinv Hdesc. unfold placeShip.
  destruct (canPlaceShipAt fleet nm sz r c horiz) eqn:Hcan; [| done].
  apply canPlaceShipAt_sound in Hcan as [Hgrid Hclear]. cbn [negb snd].
  apply (repose_invariant fleet nm _ (cellsAt sz r c horiz)); try done.
  - apply setPosition_other.
  - intros s Hs Hn. destruct (Hdesc s Hs Hn) as [<- <-].
    unfold setPosition, shipCells. rewrite <- Hn, String.eqb_refl. done.
Qed.

Lemma rotateShip_invariant fleet ship :
  uniqueNames fleet → fleetInvariant fleet → ship ∈ fleet →
  fleetInvariant (rotateShip fleet ship).
Proof.
  intros Hu Hinv Hin. unfold rotateShip.
  destruct (position ship) as [[p0 p1]|]; [| done].
  destruct (rotateSearch fleet ship p0 p1) as [st| |] eqn:Hf; [| done | done].
  apply rotateSearch_found_fits in Hf. unfold fits in Hf.
  destruct (originOf ship st) as [topRow leftCol].
  apply canPlaceShipAt_sound in Hf as [Hgrid Hclear].
  apply (repose_invariant fleet (name ship) _
           (cellsAt (size ship) topRow leftCol (negb (horizontal ship))));
    try done.
  - apply setPose_other.
  - intros s Hs Hn.
    pose proof (uniqueNames_elem fleet s ship Hu Hs Hin Hn) as ->.
    unfold setPose, shipCells. by rewrite String.eqb_refl.
Qed.

(** C4.  With ship names unique, the fleet invariant is kept by
    [placeShip] when the size and orientation passed are those of the named
    ship, and by [rotateShip] on a ship of the fleet. *)
Theorem updates_keep_invariant fleet :
  uniqueNames fleet → fleetInvariant fleet →
  (∀ nm sz r c horiz,
     (∀ s, s ∈ fleet → name s = nm → size s = sz ∧ horizontal s = horiz) →
     fleetInvariant (placeShip fleet nm sz r c horiz).2) ∧
  (∀ ship, ship ∈ fleet → fleetInvariant (rotateShip fleet ship)).
Proof.
  intros Hu Hinv. split.
  - intros nm sz r c horiz Hdesc. by apply placeShip_invariant.
  - intros ship Hin. by apply rotateShip_invariant.
Qed.

Lemma defaultShips_unplaced s : s ∈ defaultShips → shipCells s = [].
Proof.
  unfold defaultShips. rewrite !elem_of_cons, elem_of_nil.
  intros [->|[->|[->|[->|[->|[]]]]]]; done.
Qed.

Lemma defaultShips_invariant : fleetInvariant defaultShips.
Proof.
  split.
  - intros s Hs cell Hcell. rewrite (defaultShips_unplaced s Hs) in Hcell.
    by apply elem_of_nil in Hcell.
  - intros i j s t _ Hi _ cell Hcell.
    apply list_elem_of_lookup_2 in Hi.
    rewrite (defaultShips_unplaced s Hi) in Hcell.
    by apply elem_of_nil in Hcell.
Qed.

(** C4, as stated, fails: on the initial fleet, [placeShip] called for the
    carrier with size 1 at [(0,9)] is accepted and leaves the five-cell
    carrier reaching out of the grid. *)
Lemma placeShip_breaks_invariant :
  fleetInvariant defaultShips ∧
  ¬ fleetInvariant (placeShip defaultShips "Carrier" 1 0 9 true).2.
Proof.
  split; [apply defaultShips_invariant |].
  intros [Hgrid _].
  assert (inGrid (0, 13)) as [_ H]; [| cbn [snd] in H; lia].
  apply (Hgrid (mkShip "Carrier" 5 (Some (0, 9)) "#1E40AF" true)).
  - vm_compute. left.
  - unfold shipCells. cbn [position size horizontal].
    apply elem_of_cellsAt. exists 4. split; [lia | done].
Qed.

(** ** The claims on the validator and on [placeShip] *)

(** C3.  On the cells of the candidate placement, [canPlaceShipAt] answers
    false when one of them is outside the grid, false when one of them is a
    cell of a placed ship with another name, and, for a ship of positive
    size, true in every other case.  An unplaced ship has no cells. *)
Theorem canPlaceShipAt_decides fleet nm sz r c horiz :
  ((∃ cell, cell ∈ cellsAt sz r c horiz ∧ ¬ inGrid cell) →
   canPlaceShipAt fleet nm sz r c horiz = false) ∧
  ((∃ cell s, cell ∈ cellsAt sz r c horiz ∧ s ∈ fleet ∧ name s ≠ nm ∧
              cell ∈ shipCells s) →
   canPlaceShipAt fleet nm sz r c horiz = false) ∧
  (0 < sz →
   (∀ cell, cell ∈ cellsAt sz r c horiz → inGrid cell) →
   (∀ s, s ∈ fleet → name s ≠ nm →
         ∀ cell, cell ∈ cellsAt sz r c horiz → cell ∉ shipCells s) →
   canPlaceShipAt fleet nm sz r c horiz = true) ∧
  (∀ s, position s = None → shipCells s = []).
Proof.
  split; [| split; [| split]].
  - intros (cell & Hcell & Hout). apply not_true_is_false. intros Hcan.
    apply canPlaceShipAt_sound in Hcan as [Hgrid _]. by apply Hout, Hgrid.
  - intros (cell & s & Hcell & Hs & Hne & Hin). apply not_true_is_false.
    intros Hcan. apply canPlaceShipAt_sound in Hcan as [_ Hclear].
    by apply (Hclear s Hs Hne cell).
  - intros Hsz Hgrid Hclear. by apply canPlaceShipAt_true_iff.
  - intros s Hpos. unfold shipCells. by rewrite Hpos.
Qed.

(** C8.  In a fleet satisfying the invariant, a placed ship of positive
    size passes the validator at its own origin and orientation. *)
Theorem canPlaceShipAt_own_place fleet s r c :
  fleetInvariant fleet → s ∈ fleet → position s = Some (r, c) →
  0 < size s →
  canPlaceShipAt fleet (name s) (size s) r c (horizontal s) = true.
Proof.
  intros [Hgrid Hdisj] Hs Hpos Hsz.
  assert (shipCells s = cellsAt (size s) r c (horizontal s)) as Hcells
    by (unfold shipCells; by rewrite Hpos).
  apply canPlaceShipAt_true_iff; [done |]. rewrite <- Hcells. split.
  - by apply Hgrid.
  - intros t Ht Hne cell Hcell.
    apply list_elem_of_lookup in Hs as [i Hi].
    apply list_elem_of_lookup in Ht as [j Hj].
    apply (Hdisj i j s t); [| done..]. intros ->. congruence.
Qed.

(** C5.  [placeShip] answers what [canPlaceShipAt] answers.  On success
    every ship with the given name, and no other, is moved to [(row, col)];
    on failure the fleet is returned as it was. *)
Theorem placeShip_revalidates fleet nm sz r c horiz :
  (canPlaceShipAt fleet nm sz r c horiz = true →
   (placeShip fleet nm sz r c horiz).1 = true ∧
   name <$> (placeShip fleet nm sz r c horiz).2 = name <$> fleet ∧
   (∀ s', s' ∈ (placeShip fleet nm sz r c horiz).2 → name s' = nm →
          position s' = Some (r, c))) ∧
  (canPlaceShipAt fleet nm sz r c horiz = false →
   placeShip fleet nm sz r c horiz = (false, fleet)).
Proof.
  unfold placeShip. split; intros ->; [| done]. cbn [negb fst snd].
  split; [done |]. split.
  - rewrite <- list_fmap_compose. apply list_fmap_ext. intros i s _.
    unfold compose, setPosition. by destruct (String.eqb (name s) nm).
  - intros s' (s & -> & Hs)%list_elem_of_fmap. unfold setPosition.
    destruct (String.eqb_spec (name s) nm) as [Heq|Hne]; [done |].
    intros Hn. by destruct Hne.
Qed.

(** C10.  Both updates keep the fleet slot by slot: a ship whose name is not
    the target is returned as it was, and a ship whose name is the target
    keeps its name, size and colour ([placeShip] keeps its orientation
    too). *)
Theorem updates_frame fleet i s :
  fleet !! i = Some s →
  (∀ nm sz r c horiz,
     length (placeShip fleet nm sz r c horiz).2 = length fleet ∧
     ∃ s', (placeShip fleet nm sz r c horiz).2 !! i = Some s' ∧
           name s' = name s ∧ size s' = size s ∧ color s' = color s ∧
           horizontal s' = horizontal s ∧ (name s ≠ nm → s' = s)) ∧
  (∀ ship,
     length (rotateShip fleet ship) = length fleet ∧
     ∃ s', rotateShip fleet ship !! i = Some s' ∧
           name s' = name s ∧ size s' = size s ∧ color s' = color s ∧
           (name s ≠ name ship → s' = s)).
Proof.
  intros Hi. split.
  - intros nm sz r c horiz. unfold placeShip.
    destruct (canPlaceShipAt fleet nm sz r c horiz); cbn [negb snd].
    + rewrite length_fmap. split; [done |].
      exists (setPosition nm r c s). rewrite list_lookup_fmap, Hi.
      split; [done |]. unfold setPosition.
      destruct (String.eqb_spec (name s) nm); by repeat split.
    + split; [done |]. exists s. by repeat split.
  - intros ship. unfold rotateShip.
    destruct (position ship) as [[p0 p1]|];
      [| split; [done |]; exists s; by repeat split].
    destruct (rotateSearch fleet ship p0 p1) as [st| |];
      [| split; [done |]; exists s; by repeat split ..].
    destruct (originOf ship st) as [topRow leftCol].
    rewrite length_fmap. split; [done |].
    exists (setPose (name ship) topRow leftCol s).
    rewrite list_lookup_fmap, Hi. split; [done |]. unfold setPose.
    destruct (String.eqb_spec (name s) (name ship)); by repeat split.
Qed.

(** ** The drag modifier *)

(** [roundHalfUp m k] is the integer [n] with [n - 1/2 <= m / 2 ^ k < n + 1/2]. *)
Lemma roundHalfUp_nearest (m k : Z) :
  0 <= k →
  2 ^ k * (2 * Snap.roundHalfUp m k - 1) <= 2 * m
  < 2 ^ k * (2 * Snap.roundHalfUp m k + 1).
Proof.
  intros Hk. unfold Snap.roundHalfUp.
  assert (0 < 2 ^ k) as Hpow by (apply Z.pow_pos_nonneg; lia).
  replace (2 ^ (k + 1)) with (2 * 2 ^ k) by (rewrite Z.pow_add_r; lia).
  pose proof (Z.div_mod (2 * m + 2 ^ k) (2 * 2 ^ k) ltac:(lia)) as Hdiv.
  pose proof (Z.mod_pos_bound (2 * m + 2 ^ k) (2 * 2 ^ k) ltac:(lia)) as Hmod.
  nia.
Qed.

Section Snapping.
Import PrimFloat.
Local Open Scope float_scope.

(** [Math.round] on halves, near halves, zeros, large and special numbers. *)
Lemma Math_round_values :
  Snap.Math_round 0.5 = 1 ∧ Snap.Math_round (-0.5) = -0 ∧
  Snap.Math_round 2.5 = 3 ∧ Snap.Math_round (-2.5) = -2 ∧
  Snap.Math_round 0x1.fffffffffffffp-2 = 0 ∧
  Snap.Math_round (-0.75) = -1 ∧ Snap.Math_round 0.25 = 0 ∧
  Snap.Math_round 0 = 0 ∧ Snap.Math_round (-0) = -0 ∧
  Snap.Math_round 0x1.fffffffffffffp51 = 0x1p52 ∧
  Snap.Math_round 0x1p1000 = 0x1p1000 ∧
  Snap.Math_round infinity = infinity ∧
  Snap.Math_round neg_infinity = neg_infinity ∧
  Snap.Math_round nan = nan.
Proof. vm_compute. repeat split. Qed.

End Snapping.

(** ** The invariant on concrete fleets *)

Lemma fleetInvariantb_sound fleet :
  fleetInvariantb fleet = true → fleetInvariant fleet.
Proof.
  unfold fleetInvariantb. rewrite andb_true_iff, !forallb_forall.
  intros [Hgrid Hdisj]. split.
  - intros s Hs cell Hcell.
    specialize (Hgrid s (proj1 (list_elem_of_In _ _) Hs)).
    rewrite forallb_forall in Hgrid.
    specialize (Hgrid cell (proj1 (list_elem_of_In _ _) Hcell)).
    unfold inGridb in Hgrid. unfold inGrid. lia.
  - intros i j s t Hij Hi Hj cell Hcs Hct.
    assert ((i, s) ∈ imap pair fleet) as His
      by (by apply (elem_of_lookup_imap_2 pair)).
    assert ((j, t) ∈ imap pair fleet) as Hjt
      by (by apply (elem_of_lookup_imap_2 pair)).
    specialize (Hdisj _ (proj1 (list_elem_of_In _ _) His)).
    rewrite forallb_forall in Hdisj.
    specialize (Hdisj _ (proj1 (list_elem_of_In _ _) Hjt)).
    cbn [fst snd] in Hdisj. apply orb_true_iff in Hdisj as [Heq|Hd].
    + by apply bool_decide_eq_true_1 in Heq.
    + unfold disjointb in Hd. rewrite forallb_forall in Hd.
      specialize (Hd cell (proj1 (list_elem_of_In _ _) Hcs)).
      apply negb_true_iff, bool_decide_eq_false_1 in Hd. done.
Qed.

(** ** The search finds a pose whenever one exists *)

Lemma legal_pose_candidate fleet ship p0 p1 topRow leftCol :
  0 < size ship →
  canPlaceShipAt fleet (name ship) (size ship) topRow leftCol
                 (negb (horizontal ship)) = true →
  candidate (seeds ship p0 p1) (pivotAt ship topRow leftCol) ∧
  fits fleet ship (pivotAt ship topRow leftCol) = true.
Proof.
  intros Hsz Hcan. pose proof (pivotOffset_range ship Hsz) as [Hoff _].
  split; [split |].
  - apply canPlaceShipAt_sound in Hcan as [Hgrid _].
    specialize (Hgrid (if negb (horizontal ship)
                       then (topRow, leftCol + pivotOffset ship)
                       else (topRow + pivotOffset ship, leftCol))).
    unfold pivotAt, onBoard. cbn [fst snd].
    destruct (horizontal ship); cbn [negb] in Hgrid.
    + rewrite Z.add_0_r.
      apply Hgrid, elem_of_cellsAt. by exists (pivotOffset ship).
    + rewrite Z.add_0_r.
      apply Hgrid, elem_of_cellsAt. by exists (pivotOffset ship).
  - unfold pivotAt, seeds, pivot. cbn [snd seedCell].
    rewrite Z.eqb_refl. by eexists.
  - unfold fits, pivotAt, originOf.
    destruct (horizontal ship).
    + by replace (topRow + pivotOffset ship - pivotOffset ship) with topRow
        by lia; replace (leftCol + 0 - 0) with leftCol by lia.
    + by replace (leftCol + pivotOffset ship - pivotOffset ship) with leftCol
        by lia; replace (topRow + 0 - 0) with topRow by lia.
Qed.

(** X6.  If the flipped ship is legal at some origin, [rotateShip] on a ship
    lying in the grid ends with a pose that the validator accepts: in the
    fleet it returns, every ship with the name of the rotated one has that
    origin and its orientation flipped, and every other ship is as
    before. *)
Lemma rotateShip_commits_when_possible fleet ship p0 p1 topRow leftCol :
  position ship = Some (p0, p1) → 0 < size ship →
  (∀ cell, cell ∈ shipCells ship → inGrid cell) →
  canPlaceShipAt fleet (name ship) (size ship) topRow leftCol
                 (negb (horizontal ship)) = true →
  ∃ st, rotateSearch fleet ship p0 p1 = Found st ∧
        canPlaceShipAt fleet (name ship) (size ship)
          (originOf ship st).1 (originOf ship st).2
          (negb (horizontal ship)) = true ∧
        rotateShip fleet ship
        = setPose (name ship) (originOf ship st).1 (originOf ship st).2
            <$> fleet ∧
        (∀ i s, fleet !! i = Some s →
           rotateShip fleet ship !! i
           = Some (if String.eqb (name s) (name ship)
                   then mkShip (name s) (size s) (Some (originOf ship st))
                               (color s) (negb (horizontal s))
                   else s)).
Proof.
  intros Hpos Hsz Hgrid Hcan.
  destruct (legal_pose_candidate fleet ship p0 p1 _ _ Hsz Hcan) as [Hc Hfit].
  destruct (rotateSearch_total fleet ship p0 p1) as [Hne _].
  destruct (rotateSearch fleet ship p0 p1) as [st| |] eqn:Hf; [| | done].
  - exists st. split; [done |]. split; [| split].
    + apply rotateSearch_found_fits in Hf. unfold fits in Hf.
      by destruct (originOf ship st).
    + by apply (rotateShip_found fleet ship p0 p1).
    + intros i s Hi. by apply (rotateShip_found_slot fleet ship p0 p1).
  - exfalso.
    pose proof (bfs_exhaustive (fits fleet ship) (seeds ship p0 p1)
                  (seeds_onBoard ship p0 p1 Hpos Hsz Hgrid)
                  searchFuel (seeds ship p0 p1) {[ pivot ship p0 p1 ]} Hf
                  0 [] (seeds ship p0 p1) [] ltac:(by rewrite app_nil_r)
                  (rotateSearch_Layered fleet ship p0 p1 Hpos Hsz Hgrid)
                  _ Hc) as Hno.
    congruence.
Qed.

(** ** The theorems at concrete inputs *)

(** The cruiser alone in the top left corner turns about the cell below its
    centre and ends upright at [(0,1)]; the free pivot [(5,1)] further down
    is no nearer. *)
Lemma rotateShip_first_and_nearest_witness :
  rotateShip cruiserFleet cruiserAtCorner !! 2%nat
  = Some (mkShip "Cruiser" 3 (Some (0, 1)) "#60A5FA" false) ∧
  rotateShip cruiserFleet cruiserAtCorner !! 0%nat
  = Some (mkShip "Carrier" 5 None "#1E40AF" true) ∧
  dist (seeds cruiserAtCorner 0 0) (1, 1, 1)
  <= dist (seeds cruiserAtCorner 0 0) (5, 1, 1).
Proof.
  destruct (rotateShip_first_and_nearest cruiserFleet cruiserAtCorner 0 0
              (1, 1, 1)) as (_ & Hslot & _ & _ & Hnear & _).
  - reflexivity.
  - reflexivity.
  - unfold shipCells, cruiserAtCorner. cbn [position size horizontal].
    intros cell (i & Hi & ->)%elem_of_cellsAt. unfold inGrid. simpl. lia.
  - vm_compute. reflexivity.
  - split; [exact (Hslot 2%nat cruiserAtCorner eq_refl) |].
    split; [exact (Hslot 0%nat (mkShip "Carrier" 5 None "#1E40AF" true)
                     eq_refl) |].
    apply Hnear.
    + split; [unfold onBoard; simpl; lia | by eexists].
    + vm_compute. reflexivity.
Defined.

(** With the carrier on [(0,0)..(0,4)]: the battleship leaves the grid from
    [(0,8)], overlaps the carrier from [(0,3)], and fits at [(1,0)]. *)
Lemma canPlaceShipAt_decides_witness :
  canPlaceShipAt openingFleet "Battleship" 4 0 8 true = false ∧
  canPlaceShipAt openingFleet "Battleship" 4 0 3 true = false ∧
  canPlaceShipAt openingFleet "Battleship" 4 1 0 true = true.
Proof.
  split; [| split].
  - destruct (canPlaceShipAt_decides openingFleet "Battleship" 4 0 8 true)
      as (Hout & _).
    apply Hout. exists (0, 10). split.
    + apply elem_of_cellsAt. exists 2. split; [lia | reflexivity].
    + intros [_ H]. simpl in H. lia.
  - destruct (canPlaceShipAt_decides openingFleet "Battleship" 4 0 3 true)
      as (_ & Hover & _).
    apply Hover.
    exists (0, 3), (mkShip "Carrier" 5 (Some (0, 0)) "#1E40AF" true).
    split; [| split; [| split]].
    + apply elem_of_cellsAt. exists 0. split; [lia | reflexivity].
    + left.
    + discriminate.
    + apply elem_of_cellsAt. exists 3. split; [simpl; lia | reflexivity].
  - destruct (canPlaceShipAt_decides openingFleet "Battleship" 4 1 0 true)
      as (_ & _ & Hfree & _).
    apply Hfree.
    + lia.
    + intros cell (i & Hi & ->)%elem_of_cellsAt. unfold inGrid. simpl. lia.
    + intros s Hs Hne cell (i & Hi & ->)%elem_of_cellsAt Hin.
      unfold openingFleet in Hs. in_fleet Hs; try (by apply elem_of_nil in Hin).
      apply elem_of_cellsAt in Hin as (j & Hj & Heq). simpl in Heq.
      discriminate Heq.
Defined.

Lemma defaultShips_uniqueNames : uniqueNames defaultShips.
Proof. unfold uniqueNames. apply (bool_decide_unpack _). vm_compute. exact I. Qed.

(** In the crowded corner, with three ships placed: moving the carrier down
    to row 5 is accepted, rotating the destroyer commits the upright pose
    from [(3,0)], and both fleets satisfy the invariant. *)
Lemma updates_keep_invariant_witness :
  placeShip crowdedCorner "Carrier" 5 5 0 true
  = (true,
     [ mkShip "Carrier" 5 (Some (5, 0)) "#1E40AF" true;
       mkShip "Battleship" 4 (Some (2, 0)) "#3B82F6" true;
       mkShip "Cruiser" 3 None "#60A5FA" true;
       mkShip "Submarine" 3 None "#93C5FD" true;
       mkShip "Destroyer" 2 (Some (0, 0)) "#C0D6F0" true ]) ∧
  fleetInvariant (placeShip crowdedCorner "Carrier" 5 5 0 true).2 ∧
  rotateShip crowdedCorner destroyerAtCorner
  = [ mkShip "Carrier" 5 (Some (1, 0)) "#1E40AF" true;
      mkShip "Battleship" 4 (Some (2, 0)) "#3B82F6" true;
      mkShip "Cruiser" 3 None "#60A5FA" true;
      mkShip "Submarine" 3 None "#93C5FD" true;
      mkShip "Destroyer" 2 (Some (3, 0)) "#C0D6F0" false ] ∧
  fleetInvariant (rotateShip crowdedCorner destroyerAtCorner).
Proof.
  destruct (updates_keep_invariant crowdedCorner) as [Hplace Hrotate].
  - unfold uniqueNames. apply (bool_decide_unpack _). vm_compute. exact I.
  - apply fleetInvariantb_sound. vm_compute. reflexivity.
  - split; [vm_compute; reflexivity |]. split; [| split].
    + apply Hplace. intros s Hs Hn. unfold crowdedCorner in Hs.
      in_fleet Hs; try discriminate Hn. split; reflexivity.
    + vm_compute. reflexivity.
    + apply Hrotate. unfold crowdedCorner, destroyerAtCorner.
      do 4 right. left.
Defined.

(** The battleship is placed at [(1,0)] and refused at [(0,3)]. *)
Lemma placeShip_revalidates_witness :
  (placeShip openingFleet "Battleship" 4 1 0 true).1 = true ∧
  placeShip openingFleet "Battleship" 4 0 3 true = (false, openingFleet).
Proof.
  destruct (placeShip_revalidates openingFleet "Battleship" 4 1 0 true)
    as [Hyes _].
  destruct (placeShip_revalidates openingFleet "Battleship" 4 0 3 true)
    as [_ Hno].
  split.
  - apply Hyes. vm_compute. reflexivity.
  - apply Hno. vm_compute. reflexivity.
Defined.

(** An unplaced carrier, and a ten-cell ship walled in by another one. *)
Lemma rotateShip_no_commit_witness :
  rotateShip defaultShips (mkShip "Carrier" 5 None "#1E40AF" true)
  = defaultShips ∧
  rotateShip wallFleet longShip = wallFleet.
Proof.
  split.
  - apply (rotateShip_no_commit defaultShips
             (mkShip "Carrier" 5 None "#1E40AF" true)).
    reflexivity.
  - destruct (rotateShip_no_commit wallFleet longShip) as [_ Hplaced].
    destruct (Hplaced 0 0) as [_ Hsame]; [reflexivity |].
    apply Hsame. vm_compute. reflexivity.
Defined.

(** The cruiser at [(0,0)] with every other ship unplaced. *)
Lemma rotateShip_three_at_origin_witness :
  rotateShip cruiserFleet cruiserAtCorner = setPose "Cruiser" 0 1 <$> cruiserFleet.
Proof.
  apply (rotateShip_three_at_origin cruiserFleet cruiserAtCorner).
  - unfold cruiserFleet. do 2 right. left.
  - reflexivity.
  - reflexivity.
  - reflexivity.
  - intros s Hs Hne r Hr Hin. unfold cruiserFleet in Hs.
    in_fleet Hs; try (by apply elem_of_nil in Hin). by apply Hne.
Defined.

(** The carrier of the opening fleet may stay where it is. *)
Lemma canPlaceShipAt_own_place_witness :
  canPlaceShipAt openingFleet "Carrier" 5 0 0 true = true.
Proof.
  apply (canPlaceShipAt_own_place openingFleet
           (mkShip "Carrier" 5 (Some (0, 0)) "#1E40AF" true) 0 0).
  - apply fleetInvariantb_sound. vm_compute. reflexivity.
  - left.
  - reflexivity.
  - reflexivity.
Defined.

Section SnappingAt.
Import PrimFloat.
Local Open Scope float_scope.

End SnappingAt.

(** Dropping the carrier leaves the battleship's slot as it was. *)
Lemma updates_frame_witness :
  (placeShip defaultShips "Carrier" 5 0 0 true).2 !! 1%nat
  = Some (mkShip "Battleship" 4 None "#3B82F6" true).
Proof.
  destruct (updates_frame defaultShips 1
              (mkShip "Battleship" 4 None "#3B82F6" true)) as [Hplace _].
  - reflexivity.
  - destruct (Hplace "Carrier" 5 0 0 true) as (_ & s' & Hs' & _ & _ & _ & _ & Hsame).
    rewrite Hs'. f_equal. apply Hsame. discriminate.
Defined.

(** * Further properties of the placement engine *)

(** ** The validator *)

(** X1.  Two placements that share a cell exclude each other: with a ship named
    [nb] lying on the one, the validator refuses the other to any ship of
    another name. *)
Theorem canPlaceShipAt_overlap_refused fleet b na sza ra ca ha rb cb cell :
  b ∈ fleet → position b = Some (rb, cb) → name b ≠ na →
  cell ∈ cellsAt sza ra ca ha →
  cell ∈ cellsAt (size b) rb cb (horizontal b) →
  canPlaceShipAt fleet na sza ra ca ha = false.
Proof.
  intros Hb Hpos Hne Ha Hcell. apply not_true_is_false. intros Hcan.
  apply canPlaceShipAt_sound in Hcan as [_ Hclear].
  apply (Hclear b Hb Hne cell Ha). unfold shipCells. by rewrite Hpos.
Qed.

Lemma existsb_fmap {A B} (p : B → bool) (g : A → B) (l : list A) :
  existsb p (g <$> l) = existsb (fun a => p (g a)) l.
Proof.
  induction l as [|a l IH]; [done |].
  rewrite fmap_cons. cbn [existsb]. by rewrite IH.
Qed.

Lemma existsb_ext_list {A} (p q : A → bool) (l : list A) :
  (∀ a, p a = q a) → existsb p l = existsb q l.
Proof. intros H. induction l as [|a l IH]; simpl; [done | by rewrite H, IH]. Qed.

Lemma forallb_ext_list {A} (p q : A → bool) (l : list A) :
  (∀ a, p a = q a) → forallb p l = forallb q l.
Proof. intros H. induction l as [|a l IH]; simpl; [done | by rewrite H, IH]. Qed.

Lemma blocks_own nm r c s : name s = nm → blocks nm r c s = false.
Proof.
  intros Hn. unfold blocks. destruct (position s) as [[p0 p1]|]; [| done].
  by rewrite <- Hn, String.eqb_refl.
Qed.

(** A map over the fleet that only touches ships called [nm], and keeps
    their name, is invisible to the validation of [nm]. *)
Lemma canPlaceShipAt_fmap fleet nm (g : Ship → Ship) sz r c horiz :
  (∀ s, name s ≠ nm → g s = s) →
  (∀ s, name s = nm → name (g s) = nm) →
  canPlaceShipAt (g <$> fleet) nm sz r c horiz
  = canPlaceShipAt fleet nm sz r c horiz.
Proof.
  intros Hother Hnamed. unfold canPlaceShipAt.
  destruct ((r <? 0) || (r >=? 10) || (c <? 0) || (c >=? 10)); [done |].
  destruct (horiz && (c + sz >? 10)); [done |].
  destruct (negb horiz && (r + sz >? 10)); [done |].
  apply forallb_ext_list. intros i. cbn zeta. f_equal.
  rewrite existsb_fmap. apply existsb_ext_list. intros s.
  destruct (decide (name s = nm)) as [Heq|Hne].
  - by rewrite !blocks_own by auto.
  - by rewrite Hother.
Qed.

Lemma setPosition_named nm r c s :
  name s = nm →
  setPosition nm r c s
  = mkShip (name s) (size s) (Some (r, c)) (color s) (horizontal s).
Proof. intros <-. unfold setPosition. by rewrite String.eqb_refl. Qed.

Lemma setPose_named nm r c s :
  name s = nm →
  setPose nm r c s
  = mkShip (name s) (size s) (Some (r, c)) (color s) (negb (horizontal s)).
Proof. intros <-. unfold setPose. by rewrite String.eqb_refl. Qed.

(** X2.  Whether a ship may be placed somewhere does not depend on where that
    ship itself currently lies, nor on its orientation: moving or rotating
    the ship called [nm] changes no answer of the validator for [nm]. *)
Theorem canPlaceShipAt_ignores_own_pose fleet nm r0 c0 sz r c horiz :
  canPlaceShipAt (setPosition nm r0 c0 <$> fleet) nm sz r c horiz
  = canPlaceShipAt fleet nm sz r c horiz ∧
  canPlaceShipAt (setPose nm r0 c0 <$> fleet) nm sz r c horiz
  = canPlaceShipAt fleet nm sz r c horiz.
Proof.
  split; apply canPlaceShipAt_fmap.
  - apply setPosition_other.
  - intros s Hs. by rewrite setPosition_named.
  - apply setPose_other.
  - intros s Hs. by rewrite setPose_named.
Qed.

Lemma setPosition_twice nm r c s :
  setPosition nm r c (setPosition nm r c s) = setPosition nm r c s.
Proof.
  destruct (decide (name s = nm)) as [Heq|Hne].
  - rewrite (setPosition_named nm r c s Heq). by rewrite setPosition_named.
  - by rewrite !(setPosition_other nm r c s Hne).
Qed.

(** X3.  Dropping a ship a second time on the cell it was just placed on is
    accepted again and changes nothing. *)
Theorem placeShip_again fleet nm sz r c horiz :
  (placeShip fleet nm sz r c horiz).1 = true →
  placeShip (placeShip fleet nm sz r c horiz).2 nm sz r c horiz
  = (true, (placeShip fleet nm sz r c horiz).2).
Proof.
  unfold placeShip.
  destruct (canPlaceShipAt fleet nm sz r c horiz) eqn:Hcan; [| done].
  intros _. cbn [negb snd].
  rewrite (canPlaceShipAt_fmap fleet nm (setPosition nm r c));
    [| apply setPosition_other | by intros s Hs; rewrite setPosition_named].
  rewrite Hcan. cbn [negb]. f_equal.
  rewrite <- list_fmap_compose. apply list_fmap_ext. intros i s _.
  apply setPosition_twice.
Qed.

(** X4.  While every other ship is still in the tray, a ship of positive size is
    accepted exactly where it fits the grid. *)
Theorem canPlaceShipAt_others_unplaced fleet nm sz r c horiz :
  (∀ s, s ∈ fleet → name s ≠ nm → position s = None) →
  0 < sz →
  canPlaceShipAt fleet nm sz r c horiz = true ↔
  0 <= r ∧ 0 <= c ∧
  (if horiz then r < 10 ∧ c + sz <= 10 else r + sz <= 10 ∧ c < 10).
Proof.
  intros Hun Hsz. rewrite canPlaceShipAt_true_iff by done. split.
  - intros [Hgrid _].
    assert (inGrid (r, c)) as [H1 H2].
    { apply Hgrid, elem_of_cellsAt. exists 0. split; [lia |].
      destruct horiz; by rewrite Z.add_0_r. }
    assert (inGrid (if horiz then (r, c + (sz - 1)) else (r + (sz - 1), c)))
      as Hlast.
    { apply Hgrid, elem_of_cellsAt. exists (sz - 1). split; [lia | done]. }
    unfold inGrid in *. destruct horiz; simpl in *; lia.
  - intros (Hr & Hc & Hfit). split.
    + intros cell (i & Hi & ->)%elem_of_cellsAt. unfold inGrid.
      destruct horiz; simpl; lia.
    + intros s Hs Hne cell _. unfold shipCells. rewrite (Hun s Hs Hne).
      apply not_elem_of_nil.
Qed.

(** ** The rotation search *)

Lemma dequeued_length accept offsets : ∀ fuel queue visited,
  (∀ st, st ∈ queue → st.2 ∈ offsets) →
  (length (dequeued accept fuel queue visited)
   <= slack offsets queue visited)%nat.
Proof.
  induction fuel as [|fuel IH]; intros queue visited Hoff; [simpl; lia |].
  simpl. destruct queue as [|st rest]; [simpl; lia |].
  destruct (accept st); [unfold slack; simpl; lia |].
  destruct (expand st rest visited) as [queue' visited'] eqn:Hex.
  assert (st.2 ∈ offsets) as Hst by (apply Hoff; left).
  destruct (expand_slack offsets _ _ _ _ _ Hst Hex) as [Hsl Hq].
  assert (∀ n, n ∈ queue' → n.2 ∈ offsets) as Hoff'.
  { intros n [Hn| ->]%Hq; [| done]. apply Hoff. by right. }
  specialize (IH queue' visited' Hoff').
  unfold slack in *. simpl. lia.
Qed.

(** X5.  Whatever the fleet and wherever the ship lies, in the grid or not, the
    loop of [rotateShip] ends: it takes at most 202 states off its queue,
    and a larger bound on its rounds changes nothing. *)
Theorem rotateShip_search_bounded fleet ship p0 p1 :
  (length (rotateVisits fleet ship p0 p1) <= 202)%nat ∧
  rotateSearch fleet ship p0 p1 ≠ OutOfFuel ∧
  (∀ fuel, (searchFuel <= fuel)%nat →
     bfs (fits fleet ship) fuel (seeds ship p0 p1) {[ pivot ship p0 p1 ]}
     = rotateSearch fleet ship p0 p1).
Proof.
  split; [| apply rotateSearch_total].
  unfold rotateVisits.
  etrans; [apply (dequeued_length _ [pivotOffset ship; pivotOffset ship + 1]);
           apply seeds_offsets |].
  unfold slack.
  set (U := universe [pivotOffset ship; pivotOffset ship + 1]).
  pose proof (size_universe [pivotOffset ship; pivotOffset ship + 1]) as Hu.
  fold U in Hu.
  assert (U ∖ {[ pivot ship p0 p1 ]} ⊆ U) as Hsub
    by (intros x [Hx _]%elem_of_difference; exact Hx).
  apply subseteq_size in Hsub.
  assert (length (seeds ship p0 p1) <= 2)%nat
    by (destruct (seeds_cases ship p0 p1) as [-> | ->]; simpl; lia).
  cbn [length] in Hu. lia.
Qed.

Lemma occurrences_app st l k :
  occurrences st (l ++ k) = (occurrences st l + occurrences st k)%nat.
Proof. unfold occurrences. by rewrite list.filter_app, length_app. Qed.

Lemma occurrences_cons st y l :
  occurrences st (y :: l)
  = ((if decide (y = st) then 1 else 0) + occurrences st l)%nat.
Proof.
  unfold occurrences. rewrite list.filter_cons.
  by destruct (decide (y = st)).
Qed.

Lemma occurrences_notin st l : st ∉ l → occurrences st l = 0%nat.
Proof.
  induction l as [|y l IH]; [done |]. intros Hn.
  rewrite occurrences_cons, IH by (intros ?; apply Hn; by right).
  destruct (decide (y = st)) as [->|]; [| done]. exfalso. apply Hn. left.
Qed.

Lemma occurrences_NoDup st l : NoDup l → (occurrences st l <= 1)%nat.
Proof.
  induction 1 as [|y l Hy Hnd IH]; [unfold occurrences; simpl; lia |].
  rewrite occurrences_cons. destruct (decide (y = st)) as [->|]; [| lia].
  rewrite (occurrences_notin st l Hy). lia.
Qed.

(** A state leaves the queue as often as it is in it, and once more at most
    if it has not been recorded as visited. *)
Lemma dequeued_occurrences accept x : ∀ fuel queue visited,
  (occurrences x (dequeued accept fuel queue visited)
   <= occurrences x queue + (if decide (x ∈ visited) then 0 else 1))%nat.
Proof.
  induction fuel as [|fuel IH]; intros queue visited;
    [simpl; unfold occurrences at 1; simpl; lia |].
  simpl. destruct queue as [|st rest];
    [unfold occurrences at 1; simpl; lia |].
  destruct (accept st).
  { rewrite !occurrences_cons. change (occurrences x []) with 0%nat. lia. }
  destruct (expand_spec st rest visited) as (new & Heq & Hnd & Hnew & _).
  rewrite Heq. rewrite !occurrences_cons.
  specialize (IH (rest ++ new) (list_to_set new ∪ visited)).
  rewrite occurrences_app in IH.
  assert (occurrences x new
          + (if decide (x ∈ list_to_set new ∪ visited) then 0 else 1)
          <= (if decide (x ∈ visited) then 0 else 1))%nat; [| lia].
  destruct (decide (x ∈ new)) as [Hin|Hout].
  - destruct (Hnew x Hin) as (_ & _ & Hv).
    pose proof (occurrences_NoDup x new Hnd).
    destruct (decide (x ∈ visited)); [done |].
    destruct (decide (x ∈ list_to_set new ∪ visited)) as [|Hno]; [lia |].
    exfalso. apply Hno, elem_of_union. left. by apply elem_of_list_to_set.
  - rewrite (occurrences_notin x new Hout).
    destruct (decide (x ∈ visited)) as [Hv|Hv].
    + destruct (decide (x ∈ list_to_set new ∪ visited)) as [|Hno]; [lia |].
      exfalso. apply Hno, elem_of_union. by right.
    + destruct (decide (x ∈ list_to_set new ∪ visited)) as [Hyes|]; [| lia].
      apply elem_of_union in Hyes as [Hyes%elem_of_list_to_set|Hyes]; done.
Qed.

(** X7.  No state is taken off the queue of [rotateShip] more than twice, and
    only the second seed of a ship of even size, which enters the queue
    without being recorded as visited, can be taken off twice. *)
Theorem rotateShip_dequeues_bounded fleet ship p0 p1 x :
  (occurrences x (rotateVisits fleet ship p0 p1) <= 2)%nat ∧
  (x ∉ drop 1 (seeds ship p0 p1) →
   (occurrences x (rotateVisits fleet ship p0 p1) <= 1)%nat).
Proof.
  pose proof (dequeued_occurrences (fits fleet ship) x searchFuel
                (seeds ship p0 p1) {[ pivot ship p0 p1 ]}) as Hocc.
  fold (rotateVisits fleet ship p0 p1) in Hocc.
  assert (pivot ship p0 p1
          ≠ ((pivot ship p0 p1).1.1 + (if horizontal ship then 0 else 1),
             (pivot ship p0 p1).1.2 + (if horizontal ship then 1 else 0),
             pivotOffset ship + 1)) as Hdiff.
  { unfold pivot. cbn [fst snd]. intros Heq. injection Heq as _ _ Heq. lia. }
  destruct (seeds_cases ship p0 p1) as [Hs|Hs]; rewrite Hs in *;
    rewrite ?occurrences_cons in Hocc; change (occurrences x []) with 0%nat in Hocc;
    cbn [drop].
  - destruct (decide (pivot ship p0 p1 = x)) as [<-|Hne].
    + destruct (decide (pivot ship p0 p1 ∈ ({[pivot ship p0 p1]} : gset State)))
        as [|Hno]; [split; [lia | intros _; lia] |].
      exfalso. apply Hno. by apply elem_of_singleton.
    + destruct (decide (x ∈ ({[pivot ship p0 p1]} : gset State)));
        split; try intros _; lia.
  - destruct (decide (pivot ship p0 p1 = x)) as [<-|Hne].
    + destruct (decide (pivot ship p0 p1 ∈ ({[pivot ship p0 p1]} : gset State)))
        as [|Hno]; [| exfalso; apply Hno; by apply elem_of_singleton].
      match type of Hocc with
      | context [decide (?s = pivot ship p0 p1)] =>
          destruct (decide (s = pivot ship p0 p1)) as [Heq|_];
            [by destruct Hdiff | split; [lia | intros _; lia]]
      end.
    + match type of Hocc with
      | context [decide (?s = x)] =>
          destruct (decide (s = x)) as [Heq|Hne2]
      end.
      * split; [destruct (decide (x ∈ ({[pivot ship p0 p1]} : gset State))); lia |].
        intros Hnot. exfalso. apply Hnot. rewrite <- Heq. left.
      * destruct (decide (x ∈ ({[pivot ship p0 p1]} : gset State)));
          split; try intros _; lia.
Qed.

Lemma own_place_accepted fleet s r c :
  fleetInvariant fleet → s ∈ fleet → position s = Some (r, c) →
  0 < size s →
  canPlaceShipAt fleet (name s) (size s) r c (horizontal s) = true.
Proof.
  intros [Hgrid Hdisj] Hs Hpos Hsz.
  assert (shipCells s = cellsAt (size s) r c (horizontal s)) as Hcells
    by (unfold shipCells; by rewrite Hpos).
  apply canPlaceShipAt_true_iff; [done |]. rewrite <- Hcells. split.
  - by apply Hgrid.
  - intros t Ht Hne cell Hcell.
    apply list_elem_of_lookup in Hs as [i Hi].
    apply list_elem_of_lookup in Ht as [j Hj].
    apply (Hdisj i j s t); [| done..]. intros ->. congruence.
Qed.

(** When the ship can turn about its own centre cell, the search stops at
    once. *)
Lemma rotateSearch_pivot_first fleet ship p0 p1 :
  fits fleet ship (pivot ship p0 p1) = true →
  rotateSearch fleet ship p0 p1 = Found (pivot ship p0 p1).
Proof.
  intros Hfit. unfold rotateSearch, searchFuel.
  destruct (seeds_cases ship p0 p1) as [-> | ->];
    by rewrite bfs_step, Hfit.
Qed.

(** X8.  A quarter turn and back.  In a fleet with unique names that satisfies
    the invariant, if a placed ship can turn about its centre cell, then
    [rotateShip] turns it there, and [rotateShip] on the turned ship gives
    back the fleet as it was. *)
Theorem rotateShip_there_and_back fleet ship p0 p1 :
  uniqueNames fleet → fleetInvariant fleet → ship ∈ fleet →
  position ship = Some (p0, p1) → 0 < size ship →
  fits fleet ship (pivot ship p0 p1) = true →
  let origin := originOf ship (pivot ship p0 p1) in
  let turned :=
    mkShip (name ship) (size ship) (Some origin) (color ship)
           (negb (horizontal ship)) in
  rotateShip fleet ship = setPose (name ship) origin.1 origin.2 <$> fleet ∧
  turned ∈ rotateShip fleet ship ∧
  rotateShip (rotateShip fleet ship) turned = fleet.
Proof.
  intros Hu Hinv Hin Hpos Hsz Hfit origin turned.
  pose proof (rotateSearch_pivot_first fleet ship p0 p1 Hfit) as Hfound.
  pose proof (rotateShip_found fleet ship p0 p1 _ Hpos Hfound) as Hrot.
  fold origin in Hrot.
  assert (origin = (origin.1, origin.2)) as Horigin by (by destruct origin).
  assert (turned ∈ rotateShip fleet ship) as Hturned.
  { rewrite Hrot. apply list_elem_of_fmap. exists ship. split; [| done].
    rewrite setPose_named by done. unfold turned. by rewrite Horigin at 1. }
  split; [done |]. split; [done |].
  assert (originOf turned (pivot turned origin.1 origin.2) = (p0, p1)) as Hback.
  { unfold turned, origin, originOf, pivot, pivotOffset.
    cbn [size horizontal fst snd].
    destruct (horizontal ship); cbn [negb fst snd]; f_equal; lia. }
  assert (fits (rotateShip fleet ship) turned (pivot turned origin.1 origin.2)
          = true) as Hfit'.
  { unfold fits. rewrite Hback. unfold turned at 1 2 3.
    cbn [name size horizontal]. rewrite negb_involutive, Hrot.
    rewrite (canPlaceShipAt_fmap fleet (name ship));
      [| apply setPose_other | by intros s Hs; rewrite setPose_named].
    by apply own_place_accepted. }
  pose proof (rotateSearch_pivot_first _ turned origin.1 origin.2 Hfit')
    as Hfound'.
  rewrite (rotateShip_found _ turned origin.1 origin.2 _
             ltac:(unfold turned; cbn [position]; by rewrite Horigin at 1)
             Hfound').
  rewrite Hback. cbn [fst snd]. unfold turned at 1. cbn [name].
  rewrite Hrot, <- list_fmap_compose.
  rewrite <- (list_fmap_id fleet) at 2.
  apply list_fmap_ext. intros i s Hs. unfold compose.
  apply list_elem_of_lookup_2 in Hs.
  destruct (decide (name s = name ship)) as [Heq|Hne].
  - pose proof (uniqueNames_elem fleet s ship Hu Hs Hin Heq) as ->.
    rewrite (setPose_named (name ship) origin.1 origin.2 ship eq_refl).
    rewrite setPose_named by done. cbn [name size color horizontal].
    rewrite negb_involutive, <- Hpos. by destruct ship.
  - by rewrite !(setPose_other _ _ _ s Hne).
Qed.

(** ** The drag modifier *)

(** X9.  The modifier never changes the scale of the transform, whatever the
    rectangles, and while the board is not mounted or no rectangle is being
    dragged it returns the transform as it is. *)
Theorem snapToGrid_keeps_scale (board nodeRect : option Snap.ClientRect)
    (transform : Snap.Transform) :
  Snap.scaleX (Snap.snapToGrid board nodeRect transform)
  = Snap.scaleX transform ∧
  Snap.scaleY (Snap.snapToGrid board nodeRect transform)
  = Snap.scaleY transform ∧
  (board = None ∨ nodeRect = None →
   Snap.snapToGrid board nodeRect transform = transform).
Proof.
  unfold Snap.snapToGrid.
  destruct board as [boardRect|], nodeRect as [rect|];
    try (repeat split; done).
  split; [| split].
  - by destruct (_ && _).
  - by destruct (_ && _).
  - by intros [? | ?].
Qed.

(** ** Drag data *)

(** X11.  What a ship's draggable registers passes the ship guard and reads back
    as the ship's name, size, colour and orientation; what a board cell
    registers passes the cell guard and reads back as its row and column.
    Neither is taken for the other, and a drag that ends over nothing is
    not over a cell. *)
Theorem drag_data_round_trip ship row col :
  isDragShipData (shipData ship) = true ∧
  itemOf (getProp (shipData ship) "item")
  = Drag.mkItem (name ship) (size ship) (color ship) (horizontal ship) ∧
  isCellData (cellData row col) = true ∧
  numOf (getProp (cellData row col) "row") = row ∧
  numOf (getProp (cellData row col) "col") = col ∧
  isCellData (shipData ship) = false ∧
  isDragShipData (cellData row col) = false ∧
  isCellData JUndefined = false.
Proof. repeat split; reflexivity. Qed.

(** ** The event handlers *)

(** X12.  However a drag ends, no drag is active afterwards.  When the dragged
    data is no ship data, or the drag does not end over a board cell, the
    fleet and the selection stay as they were. *)
Theorem onDragEnd_not_a_drop st data overData :
  activeDrag (onDragEnd st data overData) = None ∧
  (isDragShipData data = false ∨ isCellData overData = false →
   shipPieces (onDragEnd st data overData) = shipPieces st ∧
   selectedShip (onDragEnd st data overData) = selectedShip st).
Proof.
  unfold onDragEnd. split.
  - by destruct (negb (isDragShipData data) || negb (isCellData overData)).
  - intros [-> | ->]; [done |]. by rewrite orb_true_r.
Qed.

Lemma placeShip_accepted fleet nm sz r c horiz :
  canPlaceShipAt fleet nm sz r c horiz = true →
  placeShip fleet nm sz r c horiz = (true, setPosition nm r c <$> fleet).
Proof. intros Hcan. unfold placeShip. by rewrite Hcan. Qed.

(** X13.  A ship dropped on a board cell becomes the selected ship, whether the
    drop is accepted or not.  The fleet changes exactly when the validator
    accepts the cell: then every ship with the dragged name has its origin
    on that cell, with its other fields kept, and every other ship is as
    before; otherwise the fleet is as before.  The validation repeated
    inside [placeShip] never refuses what [onDragEnd] let through. *)
Theorem onDragEnd_drop st data overData :
  isDragShipData data = true → isCellData overData = true →
  let item := itemOf (getProp data "item") in
  let row := numOf (getProp overData "row") in
  let col := numOf (getProp overData "col") in
  selectedShip (onDragEnd st data overData) = Some (Drag.name item) ∧
  shipPieces (onDragEnd st data overData)
  = (if canPlaceShipAt (shipPieces st) (Drag.name item) (Drag.size item)
                       row col (Drag.horizontal item)
     then setPosition (Drag.name item) row col <$> shipPieces st
     else shipPieces st) ∧
  (canPlaceShipAt (shipPieces st) (Drag.name item) (Drag.size item)
                  row col (Drag.horizontal item) = true →
   ∀ i s, shipPieces st !! i = Some s →
     shipPieces (onDragEnd st data overData) !! i
     = Some (if String.eqb (name s) (Drag.name item)
             then mkShip (name s) (size s) (Some (row, col)) (color s)
                         (horizontal s)
             else s)) ∧
  (canPlaceShipAt (shipPieces st) (Drag.name item) (Drag.size item)
                  row col (Drag.horizontal item) = false →
   shipPieces (onDragEnd st data overData) = shipPieces st).
Proof.
  intros Hship Hcell item row col. unfold onDragEnd.
  rewrite Hship, Hcell. cbn [negb orb selectedShip shipPieces].
  split; [done |]. fold item row col.
  destruct (canPlaceShipAt (shipPieces st) (Drag.name item) (Drag.size item)
              row col (Drag.horizontal item)) eqn:Hcan.
  - rewrite (placeShip_accepted _ _ _ _ _ _ Hcan). cbn [snd].
    split; [done |]. split; [| done].
    intros _ i s Hi. by apply setPosition_slot.
  - split; [done |]. split; [done | done].
Qed.

(** The data of a ship dropped over cell data. *)
Lemma onDragEnd_ship_on_cell st s overData :
  isCellData overData = true →
  selectedShip (onDragEnd st (shipData s) overData) = Some (name s) ∧
  shipPieces (onDragEnd st (shipData s) overData)
  = (if canPlaceShipAt (shipPieces st) (name s) (size s)
                       (numOf (getProp overData "row"))
                       (numOf (getProp overData "col")) (horizontal s)
     then setPosition (name s) (numOf (getProp overData "row"))
                      (numOf (getProp overData "col")) <$> shipPieces st
     else shipPieces st).
Proof.
  intros Hcell. unfold onDragEnd.
  change (isDragShipData (shipData s)) with true. rewrite Hcell.
  cbn [negb orb selectedShip shipPieces].
  change (itemOf (getProp (shipData s) "item"))
    with (Drag.mkItem (name s) (size s) (color s) (horizontal s)).
  cbn [Drag.name Drag.size Drag.horizontal]. split; [done |].
  destruct (canPlaceShipAt (shipPieces st) (name s) (size s)
              (numOf (getProp overData "row"))
              (numOf (getProp overData "col")) (horizontal s)) eqn:Hcan;
    [| done].
  by rewrite (placeShip_accepted _ _ _ _ _ _ Hcan).
Qed.

(** X14.  The red paint tells the outcome of the drop.  For the ship being
    dragged over a board cell, [invalid] is raised exactly when the
    validator refuses the cell: if it is not raised, ending the drag there
    puts every ship of that name on the cell, with its other fields kept,
    and leaves every other ship as before; if it is raised, ending the drag
    there leaves the fleet as it is.  A ship that is not being dragged is
    never painted. *)
Theorem invalid_foretells_drop st s item row col :
  (activeDrag st = Some item → Drag.name item = name s →
   invalid st (cellData row col) s
   = negb (canPlaceShipAt (shipPieces st) (name s) (size s) row col
             (horizontal s)) ∧
   (invalid st (cellData row col) s = false →
    ∀ i t, shipPieces st !! i = Some t →
      shipPieces (onDragEnd st (shipData s) (cellData row col)) !! i
      = Some (if String.eqb (name t) (name s)
              then mkShip (name t) (size t) (Some (row, col)) (color t)
                          (horizontal t)
              else t)) ∧
   (invalid st (cellData row col) s = true →
    shipPieces (onDragEnd st (shipData s) (cellData row col))
    = shipPieces st)) ∧
  (∀ overData,
     (activeDrag st = None ∨
      (activeDrag st = Some item ∧ Drag.name item ≠ name s)) →
     invalid st overData s = false).
Proof.
  split.
  - intros Hdrag Hname.
    assert (invalid st (cellData row col) s
            = negb (canPlaceShipAt (shipPieces st) (name s) (size s) row col
                      (horizontal s))) as Hinv.
    { unfold invalid. rewrite Hdrag, Hname, String.eqb_refl. done. }
    destruct (onDragEnd_ship_on_cell st s (cellData row col) eq_refl)
      as [_ Hfleet].
    change (numOf (getProp (cellData row col) "row")) with row in Hfleet.
    change (numOf (getProp (cellData row col) "col")) with col in Hfleet.
    split; [done |]. rewrite Hinv, Hfleet.
    destruct (canPlaceShipAt (shipPieces st) (name s) (size s) row col
                (horizontal s)); split; try done.
    intros _ i t Hi. by apply setPosition_slot.
  - intros overData [Hnone | [Hsome Hne]]; unfold invalid.
    + by rewrite Hnone.
    + rewrite Hsome.
      destruct (String.eqb_spec (name s) (Drag.name item)); [| done].
      by destruct Hne.
Qed.

Lemma find_isSelected st s :
  uniqueNames (shipPieces st) → s ∈ shipPieces st →
  selectedShip st = Some (name s) →
  List.find (isSelected st) (shipPieces st) = Some s.
Proof.
  intros Hu Hs Hsel.
  destruct (List.find (isSelected st) (shipPieces st)) as [t|] eqn:Hfind.
  - apply find_some in Hfind as [Ht Hsame]. unfold isSelected in Hsame.
    rewrite Hsel in Hsame. apply String.eqb_eq in Hsame.
    f_equal. apply (uniqueNames_elem (shipPieces st)); [done | | done..].
    by apply list_elem_of_In.
  - exfalso.
    pose proof (find_none _ _ Hfind s (proj1 (list_elem_of_In _ _) Hs)) as Hno.
    unfold isSelected in Hno. rewrite Hsel, String.eqb_refl in Hno. done.
Qed.

(** X15.  The Rotate button.  With no ship selected, or with a selection that
    names no ship of the fleet, the click raises an error and no state is
    written; this is so on the initial screen.  With the selection naming a
    ship of a fleet with unique names, the click rotates that ship and
    leaves the selection and the active drag alone. *)
Theorem onRotateClick_outcomes st :
  (selectedShip st = None → onRotateClick st = None) ∧
  (∀ sel, selectedShip st = Some sel →
     (∀ s, s ∈ shipPieces st → name s ≠ sel) → onRotateClick st = None) ∧
  (∀ s, uniqueNames (shipPieces st) → s ∈ shipPieces st →
     selectedShip st = Some (name s) →
     onRotateClick st
     = Some (mkGame (rotateShip (shipPieces st) s) (activeDrag st)
                    (selectedShip st))) ∧
  onRotateClick initialGame = None.
Proof.
  split; [| split; [| split]].
  - intros Hsel. unfold onRotateClick.
    destruct (List.find (isSelected st) (shipPieces st)) as [t|] eqn:Hfind;
      [| done].
    apply find_some in Hfind as [_ Hsame]. unfold isSelected in Hsame.
    by rewrite Hsel in Hsame.
  - intros sel Hsel Hnone. unfold onRotateClick.
    destruct (List.find (isSelected st) (shipPieces st)) as [t|] eqn:Hfind;
      [| done].
    apply find_some in Hfind as [Ht Hsame]. unfold isSelected in Hsame.
    rewrite Hsel in Hsame. apply String.eqb_eq in Hsame.
    destruct (Hnone t (proj2 (list_elem_of_In _ _) Ht) Hsame).
  - intros s Hu Hs Hsel. unfold onRotateClick.
    by rewrite (find_isSelected st s Hu Hs Hsel).
  - reflexivity.
Qed.

(** ** What every reachable state of the screen satisfies *)

Lemma fixedPart_setPosition nm r c s :
  fixedPart (setPosition nm r c s) = fixedPart s.
Proof. unfold setPosition. by destruct (String.eqb (name s) nm). Qed.

Lemma fixedPart_setPose nm r c s : fixedPart (setPose nm r c s) = fixedPart s.
Proof. unfold setPose. by destruct (String.eqb (name s) nm). Qed.

Lemma fixedPart_fmap (g : Ship → Ship) (fleet : Fleet) :
  (∀ s, fixedPart (g s) = fixedPart s) →
  fixedPart <$> (g <$> fleet) = fixedPart <$> fleet.
Proof.
  intros Hg. rewrite <- list_fmap_compose. apply list_fmap_ext.
  intros i s _. apply Hg.
Qed.

Lemma fixedPart_rotateShip fleet ship :
  fixedPart <$> rotateShip fleet ship = fixedPart <$> fleet.
Proof.
  unfold rotateShip. destruct (position ship) as [[p0 p1]|]; [| done].
  destruct (rotateSearch fleet ship p0 p1) as [st| |]; [| done..].
  destruct (originOf ship st) as [topRow leftCol].
  apply fixedPart_fmap. intros s. apply fixedPart_setPose.
Qed.

Lemma fixedPart_names (fleet fleet' : Fleet) :
  fixedPart <$> fleet = fixedPart <$> fleet' →
  name <$> fleet = name <$> fleet'.
Proof.
  intros H. apply (f_equal (fmap (fun p : string * Z * string => p.1.1))) in H.
  by rewrite <- !list_fmap_compose in H.
Qed.

Lemma names_elem (fleet fleet' : Fleet) s :
  name <$> fleet = name <$> fleet' → s ∈ fleet →
  ∃ s', s' ∈ fleet' ∧ name s' = name s.
Proof.
  intros Hn Hs.
  assert (name s ∈ name <$> fleet') as Hin
    by (rewrite <- Hn; by apply list_elem_of_fmap_2).
  apply list_elem_of_fmap in Hin as (s' & Heq & Hs'). by exists s'.
Qed.

Lemma settled_uniqueNames st : settled st → uniqueNames (shipPieces st).
Proof.
  intros (Hfixed & _). unfold uniqueNames.
  rewrite (fixedPart_names _ _ Hfixed). apply defaultShips_uniqueNames.
Qed.

Lemma reachable_settled st : reachable st → settled st.
Proof.
  induction 1 as [|st s Hreach IH Hs|st s overData Hreach IH Hs
                  |st Hreach IH|st st' Hreach IH Hclick].
  - split; [done |]. split; [apply defaultShips_invariant | done].
  - unfold onDragStart.
    by destruct (isDragShipData (shipData s)).
  - pose proof (settled_uniqueNames st IH) as Hu.
    destruct IH as (Hfixed & Hinv & Hsel).
    destruct (isCellData overData) eqn:Hcell.
    + destruct (onDragEnd_ship_on_cell st s overData Hcell)
        as [Hselected Hfleet].
      set (row := numOf (getProp overData "row")) in *.
      set (col := numOf (getProp overData "col")) in *.
      assert (fixedPart <$> shipPieces (onDragEnd st (shipData s) overData)
              = fixedPart <$> shipPieces st) as Hsame.
      { rewrite Hfleet.
        destruct (canPlaceShipAt (shipPieces st) (name s) (size s) row col
                    (horizontal s)); [| done].
        apply fixedPart_fmap. intros t. apply fixedPart_setPosition. }
      split; [by rewrite Hsame |]. split.
      * rewrite Hfleet.
        destruct (canPlaceShipAt (shipPieces st) (name s) (size s) row col
                    (horizontal s)) eqn:Hcan; [| done].
        pose proof (placeShip_invariant (shipPieces st) (name s) (size s)
                      row col (horizontal s) Hu Hinv) as Hkeep.
        rewrite (placeShip_accepted _ _ _ _ _ _ Hcan) in Hkeep.
        apply Hkeep. intros t Ht Hn.
        by rewrite (uniqueNames_elem _ t s Hu Ht Hs Hn).
      * intros sel Hsel'. rewrite Hselected in Hsel'. injection Hsel' as <-.
        apply (names_elem (shipPieces st)); [| done].
        symmetry. by apply fixedPart_names.
    + unfold settled, onDragEnd. rewrite Hcell, orb_true_r.
      by cbn [shipPieces selectedShip].
  - done.
  - pose proof (settled_uniqueNames st IH) as Hu.
    destruct IH as (Hfixed & Hinv & Hsel).
    unfold onRotateClick in Hclick.
    destruct (List.find (isSelected st) (shipPieces st)) as [ship|] eqn:Hfind;
      [| done].
    injection Hclick as <-. unfold settled. cbn [shipPieces selectedShip].
    apply find_some in Hfind as [Hship%list_elem_of_In _].
    split; [by rewrite fixedPart_rotateShip |]. split.
    + by apply rotateShip_invariant.
    + intros sel Hsel'. destruct (Hsel sel Hsel') as (s & Hs & Hn).
      rewrite <- Hn. apply (names_elem (shipPieces st)); [| done].
      symmetry. apply fixedPart_names, fixedPart_rotateShip.
Qed.

(** X16.  Safety of the setup screen.  Starting from the initial fleet, whatever
    drags are started, ended (over any droppable or none) or cancelled and
    however often Rotate is clicked, as long as every drag carries the data
    of a ship of the current fleet: the fleet keeps its five ships with
    their names, sizes and colours, placed ships lie in the grid and do not
    overlap, and once a ship has been dropped the Rotate button never
    raises an error again. *)
Theorem reachable_safe st :
  reachable st →
  fixedPart <$> shipPieces st = fixedPart <$> defaultShips ∧
  uniqueNames (shipPieces st) ∧
  fleetInvariant (shipPieces st) ∧
  (selectedShip st ≠ None → onRotateClick st ≠ None).
Proof.
  intros Hreach. pose proof (reachable_settled st Hreach) as Hset.
  pose proof (settled_uniqueNames st Hset) as Hu.
  destruct Hset as (Hfixed & Hinv & Hsel).
  split; [done |]. split; [done |]. split; [done |].
  intros Hne. destruct (selectedShip st) as [sel|] eqn:Hselected; [| done].
  destruct (Hsel sel eq_refl) as (s & Hs & <-).
  unfold onRotateClick.
  by rewrite (find_isSelected st s Hu Hs Hselected).
Qed.

(** ** The further properties at concrete inputs *)

(** The battleship over the carrier's fourth cell. *)
Lemma canPlaceShipAt_overlap_refused_witness :
  canPlaceShipAt openingFleet "Battleship" 4 0 3 true = false.
Proof.
  apply (canPlaceShipAt_overlap_refused openingFleet
           (mkShip "Carrier" 5 (Some (0, 0)) "#1E40AF" true)
           "Battleship" 4 0 3 true 0 0 (0, 3)).
  - left.
  - reflexivity.
  - discriminate.
  - apply elem_of_cellsAt. exists 0. split; [lia | reflexivity].
  - apply elem_of_cellsAt. exists 3. split; [simpl; lia | reflexivity].
Defined.

(** The battleship dropped twice on [(1,0)]. *)
Lemma placeShip_again_witness :
  placeShip (placeShip openingFleet "Battleship" 4 1 0 true).2
            "Battleship" 4 1 0 true
  = (true, (placeShip openingFleet "Battleship" 4 1 0 true).2).
Proof.
  apply (placeShip_again openingFleet "Battleship" 4 1 0 true).
  vm_compute. reflexivity.
Defined.

(** The first drop of the game: the carrier fits from column 5 of row 0. *)
Lemma canPlaceShipAt_others_unplaced_witness :
  canPlaceShipAt defaultShips "Carrier" 5 0 5 true = true.
Proof.
  apply (canPlaceShipAt_others_unplaced defaultShips "Carrier" 5 0 5 true).
  - intros s Hs Hne. unfold defaultShips in Hs. in_fleet Hs; reflexivity.
  - lia.
  - lia.
Defined.

(** Five hundred rounds are as good as 203. *)
Lemma rotateShip_search_bounded_witness :
  bfs (fits crowdedCorner destroyerAtCorner) 500
      (seeds destroyerAtCorner 0 0) {[ pivot destroyerAtCorner 0 0 ]}
  = rotateSearch crowdedCorner destroyerAtCorner 0 0.
Proof.
  apply (rotateShip_search_bounded crowdedCorner destroyerAtCorner 0 0).
  unfold searchFuel. lia.
Defined.

(** The destroyer of the crowded corner fits upright from [(3,0)]; the
    search finds a pose and the destroyer ends upright there. *)
Lemma rotateShip_commits_when_possible_witness :
  rotateShip crowdedCorner destroyerAtCorner !! 4%nat
  = Some (mkShip "Destroyer" 2 (Some (3, 0)) "#C0D6F0" false) ∧
  rotateShip crowdedCorner destroyerAtCorner !! 0%nat
  = Some (mkShip "Carrier" 5 (Some (1, 0)) "#1E40AF" true).
Proof.
  destruct (rotateShip_commits_when_possible crowdedCorner destroyerAtCorner
              0 0 3 0) as (st & Hfound & _ & _ & Hslot).
  - reflexivity.
  - reflexivity.
  - unfold shipCells, destroyerAtCorner. cbn [position size horizontal].
    intros cell (i & Hi & ->)%elem_of_cellsAt. unfold inGrid. simpl. lia.
  - vm_compute. reflexivity.
  - assert (rotateSearch crowdedCorner destroyerAtCorner 0 0
            = Found (3, 0, 0)) as Hst by (vm_compute; reflexivity).
    rewrite Hst in Hfound. injection Hfound as <-.
    split.
    + exact (Hslot 4%nat destroyerAtCorner eq_refl).
    + exact (Hslot 0%nat (mkShip "Carrier" 5 (Some (1, 0)) "#1E40AF" true)
               eq_refl).
Defined.

(** Without a mounted board the drag is left as it is. *)
Lemma snapToGrid_keeps_scale_witness :
  Snap.snapToGrid None (Some Snap.shipAt) Snap.dragBy = Snap.dragBy.
Proof.
  destruct (snapToGrid_keeps_scale None (Some Snap.shipAt) Snap.dragBy)
    as (_ & _ & Hsame).
  apply Hsame. by left.
Defined.

(** The first seed of the destroyer leaves the queue once. *)
Lemma rotateShip_dequeues_bounded_witness :
  Nat.le (occurrences (0, 0, 0)
            (rotateVisits crowdedCorner destroyerAtCorner 0 0)) 1.
Proof.
  apply (rotateShip_dequeues_bounded crowdedCorner destroyerAtCorner 0 0
           (0, 0, 0)).
  change (drop 1 (seeds destroyerAtCorner 0 0)) with [(0, 1, 1)].
  intros H. apply list_elem_of_singleton in H. discriminate H.
Defined.

(** The cruiser at the centre turns upright and back. *)
Lemma rotateShip_there_and_back_witness :
  rotateShip (rotateShip centreFleet cruiserAtCentre)
             (mkShip "Cruiser" 3 (Some (3, 5)) "#60A5FA" false)
  = centreFleet.
Proof.
  apply (rotateShip_there_and_back centreFleet cruiserAtCentre 4 4).
  - unfold uniqueNames. apply (bool_decide_unpack _). vm_compute. exact I.
  - apply fleetInvariantb_sound. vm_compute. reflexivity.
  - unfold centreFleet. do 2 right. left.
  - reflexivity.
  - reflexivity.
  - vm_compute. reflexivity.
Defined.

(** A drag of something that is no ship, ended over nothing. *)
Lemma onDragEnd_not_a_drop_witness :
  shipPieces (onDragEnd initialGame JNull JUndefined) = defaultShips ∧
  selectedShip (onDragEnd initialGame JNull JUndefined) = None.
Proof.
  apply (onDragEnd_not_a_drop initialGame JNull JUndefined).
  left. reflexivity.
Defined.

(** The carrier dropped on the top left cell lies there and is selected;
    the battleship stays in the tray. *)
Lemma onDragEnd_drop_witness :
  selectedShip
    (onDragEnd initialGame
       (shipData (mkShip "Carrier" 5 None "#1E40AF" true)) (cellData 0 0))
  = Some "Carrier" ∧
  shipPieces
    (onDragEnd initialGame
       (shipData (mkShip "Carrier" 5 None "#1E40AF" true)) (cellData 0 0))
    !! 0%nat
  = Some (mkShip "Carrier" 5 (Some (0, 0)) "#1E40AF" true) ∧
  shipPieces
    (onDragEnd initialGame
       (shipData (mkShip "Carrier" 5 None "#1E40AF" true)) (cellData 0 0))
    !! 1%nat
  = Some (mkShip "Battleship" 4 None "#3B82F6" true).
Proof.
  destruct (onDragEnd_drop initialGame
              (shipData (mkShip "Carrier" 5 None "#1E40AF" true))
              (cellData 0 0)) as (Hsel & _ & Hmoved & _).
  - reflexivity.
  - reflexivity.
  - split; [exact Hsel |]. split.
    + exact (Hmoved eq_refl 0%nat (mkShip "Carrier" 5 None "#1E40AF" true)
               eq_refl).
    + exact (Hmoved eq_refl 1%nat (mkShip "Battleship" 4 None "#3B82F6" true)
               eq_refl).
Defined.

(** The battleship dragged over the carrier is painted red and the drop
    changes nothing; over [(1,0)] it is not painted and the drop puts it
    there. *)
Lemma invalid_foretells_drop_witness :
  invalid (mkGame openingFleet
             (Some (Drag.mkItem "Battleship" 4 "#3B82F6" true)) None)
          (cellData 0 3) (mkShip "Battleship" 4 None "#3B82F6" true)
  = true ∧
  shipPieces
    (onDragEnd (mkGame openingFleet
                  (Some (Drag.mkItem "Battleship" 4 "#3B82F6" true)) None)
       (shipData (mkShip "Battleship" 4 None "#3B82F6" true)) (cellData 0 3))
  = openingFleet ∧
  shipPieces
    (onDragEnd (mkGame openingFleet
                  (Some (Drag.mkItem "Battleship" 4 "#3B82F6" true)) None)
       (shipData (mkShip "Battleship" 4 None "#3B82F6" true)) (cellData 1 0))
    !! 1%nat
  = Some (mkShip "Battleship" 4 (Some (1, 0)) "#3B82F6" true).
Proof.
  destruct (invalid_foretells_drop
              (mkGame openingFleet
                 (Some (Drag.mkItem "Battleship" 4 "#3B82F6" true)) None)
              (mkShip "Battleship" 4 None "#3B82F6" true)
              (Drag.mkItem "Battleship" 4 "#3B82F6" true) 0 3)
    as [Hover _].
  destruct (Hover eq_refl eq_refl) as (Hflag & _ & Hstay).
  destruct (invalid_foretells_drop
              (mkGame openingFleet
                 (Some (Drag.mkItem "Battleship" 4 "#3B82F6" true)) None)
              (mkShip "Battleship" 4 None "#3B82F6" true)
              (Drag.mkItem "Battleship" 4 "#3B82F6" true) 1 0)
    as [Hfree _].
  destruct (Hfree eq_refl eq_refl) as (_ & Hmove & _).
  split; [rewrite Hflag; vm_compute; reflexivity |].
  split; [apply Hstay; rewrite Hflag; vm_compute; reflexivity |].
  apply (Hmove ltac:(vm_compute; reflexivity) 1%nat
           (mkShip "Battleship" 4 None "#3B82F6" true) eq_refl).
Defined.

(** Rotate clicked with the placed carrier selected. *)
Lemma onRotateClick_outcomes_witness :
  onRotateClick (mkGame openingFleet None (Some "Carrier"))
  = Some (mkGame
            (rotateShip openingFleet
               (mkShip "Carrier" 5 (Some (0, 0)) "#1E40AF" true))
            None (Some "Carrier")).
Proof.
  apply (onRotateClick_outcomes (mkGame openingFleet None (Some "Carrier"))).
  - unfold uniqueNames. apply (bool_decide_unpack _). vm_compute. exact I.
  - left.
  - reflexivity.
Defined.

(** The state after the carrier is dropped on the top left cell. *)
Lemma reachable_safe_witness :
  fleetInvariant
    (shipPieces
       (onDragEnd initialGame
          (shipData (mkShip "Carrier" 5 None "#1E40AF" true)) (cellData 0 0))).
Proof.
  apply (reachable_safe
           (onDragEnd initialGame
              (shipData (mkShip "Carrier" 5 None "#1E40AF" true))
              (cellData 0 0))).
  apply reach_end; [apply reach_init | left].
Defined.
